(** * DocumentDB log parser and plotter: a shallow embedding

    The two scripts [log_parser_and_plotter.py] and [turnAroundTimeGrapg.py]
    read benchmark logs, cut them into runs, lay the runs on one time axis,
    and derive statistics from them.  This file embeds the computational
    part of both scripts and proves the properties their specification
    states about it.

    Conventions.
    - A Python [int] is a [Z]: Python integers do not wrap around.
    - A Python [str] is a [string]; log text is taken to be ASCII, so the
      class [\d] of the [re] module is the ten ASCII digits.
    - The dict literal built by [parse_log_files] has the three fixed keys
      ['second'], ['operation'], ['duration'] and is the record [entry].
      Module [Heap] below models the same dicts as mutable objects in a
      store, where object identity matters.
    - A pandas float64 quantity (quantile, mean) is an exact rational [Q].
      Quantiles at 0.25 and 0.75 of integer data are multiples of 1/4 and
      the fences are multiples of 1/8, so binary floating point represents
      them without rounding as long as the durations stay below 2^50. *)

From Stdlib Require Import ZArith QArith Qround Lqa Ascii String List Lia.
From stdpp Require Import base option list strings gmap sorting.

Local Open Scope Z_scope.
Local Open Scope string_scope.
Local Open Scope list_scope.

(** ** The fragment of Python's [re] the two patterns use *)

Module Re.

Inductive cclass :=
| Digit                       (* \d *)
| Dot.                        (* .  : anything but a newline *)

Inductive regex :=
| Lit (l : string)            (* literal text *)
| Plus (c : cclass)           (* c+   greedy *)
| LazyStar (c : cclass)       (* c*?  non-greedy *)
| Alt (r1 r2 : regex)         (* r1|r2 *)
| Cat (r1 r2 : regex)         (* r1r2 *)
| Group (i : nat) (r : regex). (* (r), the i-th capturing group *)

Definition is_digit (c : ascii) : bool :=
  ((48 <=? nat_of_ascii c) && (nat_of_ascii c <=? 57))%nat.

Definition newline : ascii := ascii_of_nat 10.

Definition in_class (c : cclass) (a : ascii) : bool :=
  match c with
  | Digit => is_digit a
  | Dot => negb (Ascii.eqb a newline)
  end.

(** [strip_prefix l s] is the rest of [s] after the literal [l]. *)
Fixpoint strip_prefix (l s : string) : option string :=
  match l with
  | EmptyString => Some s
  | String a l' =>
      match s with
      | EmptyString => None
      | String b s' => if Ascii.eqb a b then strip_prefix l' s' else None
      end
  end.

(** The matcher is a backtracking one, in continuation-passing style:
    [k] is tried on every way to match, in the order of preference of
    [re], and the first success is the answer. *)
Section Backtracking.
Context {R : Type}.

(** [c+]: as many characters as possible first, then fewer. *)
Fixpoint plus_greedy (p : ascii -> bool) (s : string)
         (k : string -> option R) : option R :=
  match s with
  | EmptyString => None
  | String a s' =>
      if p a then
        match plus_greedy p s' k with
        | Some m => Some m
        | None => k s'
        end
      else None
  end.

(** [c*?]: as few characters as possible first, then more. *)
Fixpoint star_lazy (p : ascii -> bool) (s : string)
         (k : string -> option R) : option R :=
  match k s with
  | Some m => Some m
  | None =>
      match s with
      | EmptyString => None
      | String a s' => if p a then star_lazy p s' k else None
      end
  end.
End Backtracking.

(** The groups of a match object: [m.group(i)] is [m !! i]. *)
Abbreviation groups := (gmap nat string).

(** What was consumed between the input [s] and its suffix [s']. *)
Definition consumed (s s' : string) : string :=
  substring 0 (String.length s - String.length s') s.

Fixpoint rmatch (r : regex) (s : string) (g : groups)
         (k : string -> groups -> option groups) : option groups :=
  match r with
  | Lit l =>
      match strip_prefix l s with
      | Some s' => k s' g
      | None => None
      end
  | Plus c => plus_greedy (in_class c) s (fun s' => k s' g)
  | LazyStar c => star_lazy (in_class c) s (fun s' => k s' g)
  | Alt r1 r2 =>
      match rmatch r1 s g k with
      | Some m => Some m
      | None => rmatch r2 s g k
      end
  | Cat r1 r2 => rmatch r1 s g (fun s' g' => rmatch r2 s' g' k)
  | Group i r => rmatch r s g (fun s' g' => k s' (<[i := consumed s s']> g'))
  end.

(** [pattern.search(s)]: the match at the leftmost position that has one. *)
Fixpoint search (r : regex) (s : string) : option groups :=
  match rmatch r s ∅ (fun _ g => Some g) with
  | Some m => Some m
  | None =>
      match s with
      | EmptyString => None
      | String _ s' => search r s'
      end
  end.

(** [m.group(i)]; every group of the entry pattern takes part in every
    match (lemma [entry_pattern_groups]), so the [None] of Python never
    shows. *)
Definition group (m : groups) (i : nat) : string := default "" (m !! i).

End Re.

Infix "⋅" := Re.Cat (at level 41, right associativity).

(** [int(s)] on a string of decimal digits, the only strings the groups
    [(\d+)] capture; the bound CPython puts on the number of digits of one
    conversion is left out. *)
Definition digit_value (a : ascii) : Z := Z.of_nat (nat_of_ascii a) - 48.

Fixpoint int_acc (acc : Z) (s : string) : Z :=
  match s with
  | EmptyString => acc
  | String a s' => int_acc (10 * acc + digit_value a) s'
  end.

Definition int (s : string) : Z := int_acc 0 s.

(** ** parse_log_files (both scripts) *)

Record entry := Entry { second : Z; operation : string; duration : Z }.

(** r'\[Second (\d+)\].*?(Insert|Update|Read) completed in (\d+) ms' *)
Definition entry_pattern : Re.regex :=
  Re.Lit "[Second " ⋅ Re.Group 1 (Re.Plus Re.Digit) ⋅ Re.Lit "]" ⋅
  Re.LazyStar Re.Dot ⋅
  Re.Group 2 (Re.Alt (Re.Lit "Insert") (Re.Alt (Re.Lit "Update") (Re.Lit "Read"))) ⋅
  Re.Lit " completed in " ⋅ Re.Group 3 (Re.Plus Re.Digit) ⋅ Re.Lit " ms".

(** r'All Operations completed' *)
Definition run_end_pattern : Re.regex := Re.Lit "All Operations completed".

(** The variables of the loop: [runs] and [current_run]. *)
Definition parser_state : Type := list (list entry) * list entry.

(** The body of [for line in lines]. *)
Definition process_line (st : parser_state) (line : string) : parser_state :=
  let '(runs, current_run) := st in
  match Re.search run_end_pattern line with
  | Some _ =>
      match current_run with
      | [] => (runs, current_run)
      | _ :: _ => (runs ++ [current_run], [])
      end
  | None =>
      match Re.search entry_pattern line with
      | Some m =>
          let second := int (Re.group m 1) in
          let operation := Re.group m 2 in
          let duration := int (Re.group m 3) in
          (runs, current_run ++ [Entry second operation duration])
      | None => (runs, current_run)
      end
  end.

(** The lines of one file, then the files in the order of
    [sorted(glob.glob(file_pattern))]; a file is the list of its lines. *)
Definition process_lines (st : parser_state) (lines : list string) : parser_state :=
  fold_left process_line lines st.

Definition process_files (st : parser_state) (files : list (list string)) : parser_state :=
  fold_left process_lines files st.

(** What follows the loops: the last run is kept if it has entries. *)
Definition finish (st : parser_state) : list (list entry) :=
  let '(runs, current_run) := st in
  match current_run with
  | [] => runs
  | _ :: _ => runs ++ [current_run]
  end.

Definition parse_log_files (files : list (list string)) : list (list entry) :=
  finish (process_files ([], []) files).

(** ** adjust_cumulative_seconds (both scripts) *)

(** [adjusted_entry] is [entry.copy()] with the two keys the loop adds. *)
Record adjusted_entry := Adjusted {
  copied : entry;               (* the keys copied from the entry *)
  run : Z;                      (* adjusted_entry['run'] *)
  cumulative_second : Z         (* adjusted_entry['cumulative_second'] *)
}.

(** [enumerate(l, start)] *)
Fixpoint enumerate {A} (start : Z) (l : list A) : list (Z * A) :=
  match l with
  | [] => []
  | x :: l' => (start, x) :: enumerate (start + 1) l'
  end.

(** [max(...)] of a sequence with first element [x]. *)
Definition py_max (x : Z) (xs : list Z) : Z := fold_left Z.max xs x.

(** The body of [for entry in run]. *)
Definition adjust_entry (run_index cumulative_offset : Z)
           (adjusted_entries : list adjusted_entry) (entry : entry)
  : list adjusted_entry :=
  adjusted_entries ++ [Adjusted entry run_index (second entry + cumulative_offset)].

(** The body of [for run_index, run in enumerate(runs, start=1)], on the
    variables [adjusted_entries] and [cumulative_offset]. *)
Definition adjust_run (st : list adjusted_entry * Z) (ir : Z * list entry)
  : list adjusted_entry * Z :=
  let '(adjusted_entries, cumulative_offset) := st in
  let '(run_index, run) := ir in
  let adjusted_entries :=
    fold_left (adjust_entry run_index cumulative_offset) run adjusted_entries in
  match run with
  | [] => (adjusted_entries, cumulative_offset)
  | e :: es =>
      let max_second := py_max (second e) (map second es) in
      (adjusted_entries, cumulative_offset + (max_second + 1))
  end.

Definition adjust_loop (runs : list (list entry)) : list adjusted_entry * Z :=
  fold_left adjust_run (enumerate 1 runs) ([], 0).

Definition adjust_cumulative_seconds (runs : list (list entry)) : list adjusted_entry :=
  fst (adjust_loop runs).

(** The value of [cumulative_offset] once [runs] have been processed. *)
Definition offset_after (runs : list (list entry)) : Z := snd (adjust_loop runs).


(** ** Data frames

    A [pd.DataFrame(entries)] is the list of its rows, one per adjusted
    entry, in the order of [entries]. *)

Abbreviation frame := (list adjusted_entry).

Definition op_of (r : adjusted_entry) : string := operation (copied r).
Definition duration_of (r : adjusted_entry) : Z := duration (copied r).

(** [Series.unique()]: the distinct values in the order of first appearance. *)
Fixpoint unique {A} `{EqDecision A} (l : list A) : list A :=
  match l with
  | [] => []
  | x :: l' => x :: filter (fun y => y <> x) (unique l')
  end.

(** [df[df['operation'] == op]] *)
Definition subset_of (op : string) (df : frame) : frame :=
  filter (fun r => op_of r = op) df.

(** ** plot_tat_growth_trend (turnAroundTimeGrapg.py) *)

(** [Series.quantile(q)] with the default interpolation, 'linear': on the
    sorted values the position [(n - 1) * q] falls between two neighbours and
    the quantile lies between them in the same proportion.  The quantile of
    an empty series is NaN, here [None]. *)
Definition quantile (q : Q) (values : list Z) : option Q :=
  let sorted := merge_sort Z.le values in
  match sorted with
  | [] => None
  | v0 :: _ =>
      let n := Z.of_nat (length sorted) in
      let pos := (inject_Z (n - 1) * q)%Q in
      let lo := Qfloor pos in
      let hi := Z.min (lo + 1) (n - 1) in
      let frac := (pos - inject_Z lo)%Q in
      let a := nth (Z.to_nat lo) sorted v0 in
      let b := nth (Z.to_nat hi) sorted v0 in
      Some (inject_Z a + (inject_Z b - inject_Z a) * frac)%Q
  end.

#[local] Instance Qle_dec (a b : Q) : Decision (a <= b)%Q.
Proof.
  destruct (Qle_bool a b) eqn:E; [left|right].
  - apply Qle_bool_iff, E.
  - intros H. apply Qle_bool_iff in H. congruence.
Defined.

(** [(subset['duration'] >= Q1 - 1.5 * IQR) & (subset['duration'] <= Q3 + 1.5 * IQR)] *)
Definition within_fences (Q1 Q3 : Q) (d : Z) : Prop :=
  let IQR := (Q3 - Q1)%Q in
  (Q1 - (3 # 2) * IQR <= inject_Z d)%Q /\ (inject_Z d <= Q3 + (3 # 2) * IQR)%Q.

#[local] Instance within_fences_dec Q1 Q3 d : Decision (within_fences Q1 Q3 d).
Proof. unfold within_fences. apply _. Defined.

(** The body of [for op in df['operation'].unique()], from [subset] to
    [filtered]; a comparison with NaN is false. *)
Definition iqr_filter (subset : frame) : frame :=
  match quantile (1 # 4) (map duration_of subset), quantile (3 # 4) (map duration_of subset) with
  | Some Q1, Some Q3 => filter (fun r => within_fences Q1 Q3 (duration_of r)) subset
  | _, _ => []
  end.

(** The first loop: [filtered_df] grows by one filtered subset per kind. *)
Definition remove_outliers (df : frame) : frame :=
  fold_left (fun filtered_df op => filtered_df ++ iqr_filter (subset_of op df))
            (unique (map op_of df)) [].

(** [df['cumulative_ms'] = df['cumulative_second']] *)
Definition cumulative_ms (r : adjusted_entry) : Z := cumulative_second r.

(** One turn of the second loop: the kind and the two arrays given to
    [LinearRegression().fit(x, y)], whose line is then drawn.  The fit itself
    belongs to scikit-learn and is not modelled. *)
Record trend := Trend { trend_op : string; x : list Z; y : list Z }.

Definition fit_trend (filtered_df : frame) (op : string) : trend :=
  let op_data := subset_of op filtered_df in
  Trend op (map cumulative_ms op_data) (map duration_of op_data).

Definition plot_tat_growth_trend (entries : list adjusted_entry) : list trend :=
  match entries with
  | [] => []                    (* "No data to plot." *)
  | _ :: _ =>
      let df := entries in
      let filtered_df := remove_outliers df in
      map (fit_trend filtered_df) (unique (map op_of filtered_df))
  end.

(** ** export_to_excel (log_parser_and_plotter.py) *)

(** [agg(count, mean, min, max)] of one group of durations. *)
Record stats := Stats { Count : Z; Mean : Q; Min : Z; Max : Z }.

Definition sum (l : list Z) : Z := fold_left Z.add l 0.

Definition agg (durations : list Z) : option stats :=
  match durations with
  | [] => None
  | d :: ds =>
      Some (Stats (Z.of_nat (length durations))
                  (Qred (sum durations # Pos.of_nat (length durations)))
                  (fold_left Z.min ds d)
                  (fold_left Z.max ds d))
  end.

(** [df.groupby(key)['duration'].agg(...).reset_index()]: one row per key
    that occurs, keys in ascending order. *)
Definition groupby_agg {K} `{EqDecision K} (le : K -> K -> Prop)
           `{forall a b, Decision (le a b)} (key : adjusted_entry -> K) (df : frame)
  : list (K * stats) :=
  omap (fun k => pair k <$> agg (map duration_of (filter (fun r => key r = k) df)))
       (merge_sort le (unique (map key df))).

Definition str_le (a b : string) : Prop := Is_true (String.leb a b).

Definition run_op_le (a b : Z * string) : Prop :=
  a.1 < b.1 \/ (a.1 = b.1 /\ str_le a.2 b.2).

#[local] Instance str_le_dec a b : Decision (str_le a b).
Proof. unfold str_le. apply _. Defined.

#[local] Instance run_op_le_dec a b : Decision (run_op_le a b).
Proof. unfold run_op_le. apply _. Defined.

(** [df[df['duration'] > 0]] *)
Definition nonzero (df : frame) : frame := filter (fun r => 0 < duration_of r) df.

(** The three sheets. *)
Record workbook := Workbook {
  raw_data : list (Z * Z * Z * string * Z);
  run_stats : list ((Z * string) * stats);
  consolidated : list (string * stats)
}.

Definition raw_row (r : adjusted_entry) : Z * Z * Z * string * Z :=
  (run r, second (copied r), cumulative_second r, op_of r, duration_of r).

Definition export_to_excel (entries : list adjusted_entry) : option workbook :=
  match entries with
  | [] => None                  (* "No entries to export." *)
  | _ :: _ =>
      let df := entries in
      let df_nonzero := nonzero df in
      Some (Workbook (map raw_row df)
                     (groupby_agg run_op_le (fun r => (run r, op_of r)) df_nonzero)
                     (groupby_agg str_le op_of df_nonzero))
  end.

(** ** Vocabulary of the statements *)

(** The records seen so far, whether their run is closed or not. *)
Definition records_of (st : parser_state) : list entry := concat st.1 ++ st.2.

Definition nonempty_runs (runs : list (list entry)) : Prop :=
  Forall (fun run => run <> []) runs.

(** The result of the Record Extractor on a line: the two tests of the loop
    body in their order, the boundary pattern first. *)
Inductive tagged :=
| Boundary
| Operation (e : entry)
| Ignored.

Definition extract (line : string) : tagged :=
  match Re.search run_end_pattern line with
  | Some _ => Boundary
  | None =>
      match Re.search entry_pattern line with
      | Some m => Operation (Entry (int (Re.group m 1)) (Re.group m 2) (int (Re.group m 3)))
      | None => Ignored
      end
  end.

(** The record a tagged value carries, if any. *)
Definition payload (t : tagged) : list entry :=
  match t with
  | Operation e => [e]
  | _ => []
  end.

(** The Run Segmenter in the words of the specification, on the tagged
    values of all lines: an operation goes to the buffer; a boundary emits
    the buffer as a run and empties it if it holds a record, and does nothing
    otherwise; at the end of the input a buffer that holds a record is
    emitted as the last run. *)
Fixpoint spec_segmenter (buffer : list entry) (input : list tagged)
  : list (list entry) :=
  match input with
  | [] =>
      match buffer with
      | [] => []
      | _ :: _ => [buffer]
      end
  | Boundary :: input' =>
      match buffer with
      | [] => spec_segmenter [] input'
      | _ :: _ => buffer :: spec_segmenter [] input'
      end
  | Operation e :: input' => spec_segmenter (buffer ++ [e]) input'
  | Ignored :: input' => spec_segmenter buffer input'
  end.

(** No line of [lines] is a boundary line, and the records of [lines]. *)
Definition boundary_free (lines : list string) : Prop :=
  Forall (fun line => extract line <> Boundary) lines.

Definition records_in (lines : list string) : list entry :=
  concat (map (fun line => payload (extract line)) lines).

(** The offset after one more run: unchanged by an empty run, advanced by
    the largest second of the run plus one otherwise. *)
Definition advance (cumulative_offset : Z) (run : list entry) : Z :=
  match run with
  | [] => cumulative_offset
  | e :: es => cumulative_offset + (py_max (second e) (map second es) + 1)
  end.

(** What one run adds to [adjusted_entries]. *)
Definition adjusted_run (run_index cumulative_offset : Z) (run : list entry)
  : list adjusted_entry :=
  map (fun e => Adjusted e run_index (second e + cumulative_offset)) run.

(** The loop of [adjust_cumulative_seconds] from a given index and offset. *)
Fixpoint adjust_from (run_index cumulative_offset : Z) (runs : list (list entry))
  : list adjusted_entry :=
  match runs with
  | [] => []
  | run :: runs' =>
      adjusted_run run_index cumulative_offset run
      ++ adjust_from (run_index + 1) (advance cumulative_offset run) runs'
  end.

Definition nonneg_seconds (runs : list (list entry)) : Prop :=
  Forall (Forall (fun e => 0 <= second e)) runs.


(** [v] lies between the two values of closest rank around the position
    [(n - 1) * q] of the sorted values, in the proportion of the position. *)
Definition interpolated (q : Q) (values : list Z) (v : Q) : Prop :=
  exists (sorted : list Z) (a b : Z),
    sorted ≡ₚ values /\ StronglySorted Z.le sorted
    /\ let pos := (inject_Z (Z.of_nat (length values) - 1) * q)%Q in
       sorted !! Z.to_nat (Qfloor pos) = Some a
       /\ sorted !! Z.to_nat (Z.min (Qfloor pos + 1) (Z.of_nat (length values) - 1)) = Some b
       /\ v = (inject_Z a + (inject_Z b - inject_Z a) * (pos - inject_Z (Qfloor pos)))%Q.

(** The durations of a group of the statistics: the records with the key
    [k] whose duration is positive. *)
Definition group_durations {K} `{EqDecision K} (key : adjusted_entry -> K)
           (entries : list adjusted_entry) (k : K) : list Z :=
  map duration_of (filter (fun r => key r = k /\ 0 < duration_of r) entries).

(** [st] is the count, the arithmetic mean, the least and the greatest of
    [durations]. *)
Definition summarizes (st : stats) (durations : list Z) : Prop :=
  durations <> []
  /\ Count st = Z.of_nat (length durations)
  /\ (Mean st == inject_Z (sum durations) / inject_Z (Z.of_nat (length durations)))%Q
  /\ Min st ∈ durations /\ Max st ∈ durations
  /\ forall d, d ∈ durations -> Min st <= d <= Max st.

(** What a match of a pattern is, apart from the order in which the
    matcher tries the alternatives: [matches r s g s' g'] when [r] matches
    a prefix of [s], [s'] is what follows it, and the groups go from [g] to
    [g']. *)
Fixpoint all_chars (p : ascii -> bool) (w : string) : bool :=
  match w with
  | EmptyString => true
  | String a w' => p a && all_chars p w'
  end.

Fixpoint matches (r : Re.regex) (s : string) (g : Re.groups)
         (s' : string) (g' : Re.groups) : Prop :=
  match r with
  | Re.Lit l => s = l +:+ s' /\ g' = g
  | Re.Plus c =>
      exists w, s = w +:+ s' /\ w <> "" /\ all_chars (Re.in_class c) w = true /\ g' = g
  | Re.LazyStar c =>
      exists w, s = w +:+ s' /\ all_chars (Re.in_class c) w = true /\ g' = g
  | Re.Alt r1 r2 => matches r1 s g s' g' \/ matches r2 s g s' g'
  | Re.Cat r1 r2 => exists s1 g1, matches r1 s g s1 g1 /\ matches r2 s1 g1 s' g'
  | Re.Group i r1 => exists g1, matches r1 s g s' g1 /\ g' = <[i := Re.consumed s s']> g1
  end.

(** An entry as the data model has it. *)
Definition well_formed (e : entry) : Prop :=
  0 <= second e /\ 0 <= duration e /\ operation e ∈ ["Insert"; "Update"; "Read"].

(** ** adjust_cumulative_seconds on dict objects in a store

    The function once more, now with the dicts as mutable objects.  A run is
    a list of references; [entry.copy()] allocates, item assignment updates
    the object a reference points to, and a failed lookup or the addition of
    a string and an integer raises, which is [None]. *)
Module Heap.

Inductive value :=
| VInt (n : Z)
| VStr (s : string).

Abbreviation dict := (gmap string value).

(** An object is named by its index in the store; allocation appends. *)
Abbreviation loc := nat.
Abbreviation heap := (list dict).

(** [d[k]] where an integer is needed, and where a string is. *)
Definition dict_int (d : dict) (k : string) : option Z :=
  v ← d !! k;
  match v with
  | VInt n => Some n
  | VStr _ => None
  end.

Definition dict_str (d : dict) (k : string) : option string :=
  v ← d !! k;
  match v with
  | VStr s => Some s
  | VInt _ => None
  end.

(** [d.copy()] for the object at [l] *)
Definition copy (h : heap) (l : loc) : option (heap * loc) :=
  d ← h !! l; Some (h ++ [d], length h).

(** [d[k] = v] for the object at [l] *)
Definition setitem (h : heap) (l : loc) (k : string) (v : value) : option heap :=
  d ← h !! l; Some (<[l := <[k := v]> d]> h).

Definition getint (h : heap) (l : loc) (k : string) : option Z :=
  d ← h !! l; dict_int d k.

Fixpoint foldM {A B} (f : B -> A -> option B) (l : list A) (b : B) : option B :=
  match l with
  | [] => Some b
  | a :: l' => b' ← f b a; foldM f l' b'
  end.

Definition adjust_entry (run_index cumulative_offset : Z)
           (st : heap * list loc) (entry : loc) : option (heap * list loc) :=
  let '(h, adjusted_entries) := st in
  '(h, adjusted_entry) ← copy h entry;
  h ← setitem h adjusted_entry "run" (VInt run_index);
  s ← getint h entry "second";
  h ← setitem h adjusted_entry "cumulative_second" (VInt (s + cumulative_offset));
  Some (h, adjusted_entries ++ [adjusted_entry]).

Definition adjust_run (st : heap * list loc * Z) (ir : Z * list loc)
  : option (heap * list loc * Z) :=
  let '(h, adjusted_entries, cumulative_offset) := st in
  let '(run_index, run) := ir in
  '(h, adjusted_entries) ←
    foldM (adjust_entry run_index cumulative_offset) run (h, adjusted_entries);
  match run with
  | [] => Some (h, adjusted_entries, cumulative_offset)
  | e :: es =>
      s ← getint h e "second";
      ss ← mapM (fun l => getint h l "second") es;
      let max_second := py_max s ss in
      Some (h, adjusted_entries, cumulative_offset + (max_second + 1))
  end.

Definition adjust_cumulative_seconds (h : heap) (runs : list (list loc))
  : option (heap * list loc) :=
  '(h, adjusted_entries, _) ← foldM adjust_run (enumerate 1 runs) (h, [], 0);
  Some (h, adjusted_entries).

(** The dict that [parse_log_files] builds for an entry, and the entry and
    the adjusted entry a dict stands for. *)
Definition dict_of_entry (e : entry) : dict :=
  {[ "second" := VInt (second e);
     "operation" := VStr (operation e);
     "duration" := VInt (duration e) ]}.

Definition entry_of (d : dict) : option entry :=
  s ← dict_int d "second";
  o ← dict_str d "operation";
  t ← dict_int d "duration";
  Some (Entry s o t).

Definition adjusted_of (d : dict) : option adjusted_entry :=
  e ← entry_of d;
  r ← dict_int d "run";
  c ← dict_int d "cumulative_second";
  Some (Adjusted e r c).

Definition entry_at (h : heap) (l : loc) : option entry := h !! l ≫= entry_of.

Definition adjusted_at (h : heap) (l : loc) : option adjusted_entry :=
  h !! l ≫= adjusted_of.

(** The runs of references [runs] hold the runs of entries [ess]. *)
Definition holds (h : heap) (runs : list (list loc)) (ess : list (list entry)) : Prop :=
  Forall2 (Forall2 (fun l e => entry_at h l = Some e)) runs ess.

(** [d] with the two keys of an adjusted entry set. *)
Definition adjusted_dict (run_index cumulative_second : Z) (d : dict) : dict :=
  <["cumulative_second" := VInt cumulative_second]> (<["run" := VInt run_index]> d).

(** The object at [l], and the objects the loop allocates, in order. *)
Definition obj (h : heap) (l : loc) : dict := default ∅ (h !! l).

Definition new_run (h : heap) (run_index cumulative_offset : Z)
           (run : list loc) (es : list entry) : list dict :=
  zip_with (fun l e => adjusted_dict run_index (second e + cumulative_offset) (obj h l))
           run es.

Fixpoint new_objects (h : heap) (run_index cumulative_offset : Z)
         (runs : list (list loc)) (ess : list (list entry)) : list dict :=
  match runs, ess with
  | run :: runs', es :: ess' =>
      new_run h run_index cumulative_offset run es
      ++ new_objects h (run_index + 1) (advance cumulative_offset es) runs' ess'
  | _, _ => []
  end.

End Heap.

(** ** Vocabulary of the further properties *)

(** A parser state with the runs [closed] put before its own. *)
Definition with_closed (closed : list (list entry)) (st : parser_state) : parser_state :=
  (closed ++ st.1, st.2).

(** What a line on its own puts into an empty buffer: its record, if it is
    an operation line. *)
Definition record_of_line (line : string) : list entry :=
  (process_line ([], []) line).2.

(** Characters of a log line: [not_bracket] for the text before the second
    marker, [filler] for the text between the marker and the kind, which
    holds no newline and none of the letters a kind begins with. *)
Definition not_bracket (c : ascii) : bool := negb (Ascii.eqb "[" c).

Definition filler (c : ascii) : bool :=
  negb (Ascii.eqb "I" c) && negb (Ascii.eqb "U" c) && negb (Ascii.eqb "R" c)
  && negb (Ascii.eqb c Re.newline).

(** [p] does not hold of the first character of [s], if there is one. *)
Definition stops (p : ascii -> bool) (s : string) : bool :=
  match s with
  | EmptyString => true
  | String c _ => negb (p c)
  end.

(** An operation line in its plain shape. *)
Definition operation_line (pre w1 mid op w3 post : string) : string :=
  pre +:+ "[Second " +:+ w1 +:+ "]" +:+ mid +:+ op +:+ " completed in " +:+ w3
      +:+ " ms" +:+ post.

(** An adjusted entry moved by [di] runs and [d] seconds. *)
Definition shift (di d : Z) (a : adjusted_entry) : adjusted_entry :=
  Adjusted (copied a) (run a + di) (cumulative_second a + d).

(** ** get_run_colors, plot_combined_operations and
    plot_separate_operation_graphs (log_parser_and_plotter.py)

    What the two functions hand to matplotlib: one series per call of
    [plt.scatter] or [plt.plot]. *)

Definition operation_types : list string := ["Insert"; "Update"; "Read"].

(** [sorted(set(e['run'] for e in entries))] *)
Definition run_ids (entries : list adjusted_entry) : list Z :=
  merge_sort Z.le (unique (map run entries)).

(** The order of Python on pairs of integers. *)
Definition point_le (p q : Z * Z) : Prop := p.1 < q.1 \/ (p.1 = q.1 /\ p.2 <= q.2).

#[local] Instance point_le_dec p q : Decision (point_le p q).
Proof. unfold point_le. apply _. Defined.

(** [[(e['cumulative_second'], e['duration']) for e in entries
      if e['operation'] == op and e['run'] == run]] *)
Definition filtered (entries : list adjusted_entry) (op : string) (run_id : Z)
  : list (Z * Z) :=
  map (fun e => (cumulative_second e, duration_of e))
      (filter (fun e => op_of e = op /\ run e = run_id) entries).

Section Colors.

(** The colormap belongs to matplotlib and is not part of the scripts:
    [cmap n i] stands for [cm.get_cmap('tab10', n)(i)], the entry [i] of the
    colormap tab10 resampled to [n] entries, whatever it is.  Nothing is
    assumed of it; in particular two entries may be the same color. *)
Context {color : Type} (cmap : nat -> nat -> color).

(** [cmap = cm.get_cmap('tab10', num_runs)];
    [[cmap(i) for i in range(num_runs)]] *)
Definition get_run_colors (num_runs : nat) : list color :=
  map (cmap num_runs) (seq 0 num_runs).

(** [dict(zip(run_ids, get_run_colors(len(run_ids))))]: a later pair with
    the same key would replace an earlier one. *)
Definition run_colors (run_ids : list Z) : gmap Z color :=
  fold_left (fun colors p => <[p.1 := p.2]> colors)
            (zip run_ids (get_run_colors (length run_ids))) ∅.

Record series := Series {
  series_op : string;           (* the kind, in the label or the figure *)
  series_run : Z;               (* the run, in the label *)
  series_color : color;         (* run_colors[run] *)
  series_x : list Z;            (* x, y = zip( *sorted(filtered)) *)
  series_y : list Z
}.

(** The body of [for run in run_ids]: nothing is drawn for an empty
    selection; the lookup of the color raises on a missing key. *)
Definition draw (entries : list adjusted_entry) (colors : gmap Z color)
           (op : string) (run_id : Z) : option (list series) :=
  match filtered entries op run_id with
  | [] => Some []
  | _ :: _ =>
      let points := merge_sort point_le (filtered entries op run_id) in
      color ← colors !! run_id;
      Some [Series op run_id color (map fst points) (map snd points)]
  end.

(** The series of one kind, run after run. *)
Definition draw_runs (entries : list adjusted_entry) (colors : gmap Z color)
           (run_ids : list Z) (op : string) : option (list series) :=
  @concat series <$> mapM (draw entries colors op) run_ids.

(** One figure with the series of all kinds. *)
Definition plot_combined_operations (entries : list adjusted_entry)
  : option (list series) :=
  match entries with
  | [] => Some []               (* "No entries to plot." *)
  | _ :: _ =>
      let run_ids := run_ids entries in
      let run_colors := run_colors run_ids in
      @concat series <$> mapM (draw_runs entries run_colors run_ids) operation_types
  end.

(** One figure per kind, with the series of that kind. *)
Definition plot_separate_operation_graphs (entries : list adjusted_entry)
  : option (list (string * list series)) :=
  match entries with
  | [] => Some []               (* "No entries to plot." *)
  | _ :: _ =>
      let run_ids := run_ids entries in
      let run_colors := run_colors run_ids in
      mapM (fun op_type => pair op_type <$> draw_runs entries run_colors run_ids op_type)
           operation_types
  end.

(** The color the dictionary holds for a run, and the series as they come
    out when no lookup fails.  The dictionary holds a color for every run of
    the entries, so the other case of [color_of] is never met on them. *)
Definition color_of (ids : list Z) (run_id : Z) : color :=
  default (cmap 0 0) (run_colors ids !! run_id).

Definition series_of (entries : list adjusted_entry) (op : string) (run_id : Z)
  : list series :=
  match filtered entries op run_id with
  | [] => []
  | _ :: _ =>
      let points := merge_sort point_le (filtered entries op run_id) in
      [Series op run_id (color_of (run_ids entries) run_id) (map fst points) (map snd points)]
  end.

Definition series_of_kind (entries : list adjusted_entry) (op : string) : list series :=
  concat (map (series_of entries op) (run_ids entries)).

(** The number of points of some series. *)
Definition points_drawn (ss : list series) : Z :=
  sum (map (fun s => Z.of_nat (length (series_x s))) ss).

End Colors.

Arguments series : clear implicits.

(** * Properties *)

(** ** The boundary pattern is a substring test *)

Lemma append_String (a : ascii) (l s : string) :
  String a l +:+ s = String a (l +:+ s).
Proof. reflexivity. Qed.

Lemma append_empty (s : string) : "" +:+ s = s.
Proof. reflexivity. Qed.

Lemma strip_prefix_app (l s : string) : Re.strip_prefix l (l +:+ s) = Some s.
Proof.
  induction l as [|a l IH]; [reflexivity|].
  rewrite append_String. simpl. rewrite Ascii.eqb_refl. exact IH.
Qed.

Lemma strip_prefix_inv (l s s' : string) :
  Re.strip_prefix l s = Some s' -> s = l +:+ s'.
Proof.
  revert s. induction l as [|a l IH]; intros s H; simpl in *.
  - injection H as ->. reflexivity.
  - destruct s as [|b s]; [discriminate|].
    destruct (Ascii.eqb a b) eqn:E; [|discriminate].
    apply Ascii.eqb_eq in E. subst b. rewrite append_String. f_equal. auto.
Qed.

Lemma search_lit_found (l pre post : string) :
  is_Some (Re.search (Re.Lit l) (pre +:+ l +:+ post)).
Proof.
  induction pre as [|a pre IH].
  - rewrite append_empty.
    destruct (l +:+ post) eqn:E; simpl; rewrite <- E, strip_prefix_app; eauto.
  - rewrite append_String. simpl.
    destruct (Re.strip_prefix l _); [eauto|]. exact IH.
Qed.

Lemma search_lit_inv (l s : string) :
  is_Some (Re.search (Re.Lit l) s) -> exists pre post, s = pre +:+ l +:+ post.
Proof.
  induction s as [|a s IH]; simpl.
  - destruct (Re.strip_prefix l "") eqn:E.
    + intros _. apply strip_prefix_inv in E. exists "", s. exact E.
    + intros [m Hm]. discriminate.
  - destruct (Re.strip_prefix l (String a s)) eqn:E.
    + intros _. apply strip_prefix_inv in E. exists "", s0. exact E.
    + intros H. destruct (IH H) as (pre & post & ->).
      exists (String a pre), post. reflexivity.
Qed.

(** A line is a boundary line when it holds the completion text. *)
Lemma boundary_search (pre post : string) :
  exists m, Re.search run_end_pattern (pre +:+ "All Operations completed" +:+ post) = Some m.
Proof. apply (search_lit_found "All Operations completed"). Qed.

(** ** The matcher finds matches only *)

Lemma plus_greedy_sound {R} (p : ascii -> bool) (s : string)
      (k : string -> option R) (m : R) :
  Re.plus_greedy p s k = Some m ->
  exists w s', s = w +:+ s' /\ w <> "" /\ all_chars p w = true /\ k s' = Some m.
Proof.
  induction s as [|a s IH]; simpl; [discriminate|].
  destruct (p a) eqn:Ea; [|discriminate].
  destruct (Re.plus_greedy p s k) as [m'|] eqn:E.
  - intros [= ->]. destruct (IH eq_refl) as (w & s' & -> & _ & Hw & Hk).
    exists (String a w), s'. simpl. rewrite Ea, Hw. repeat split; [discriminate|exact Hk].
  - intros Hk. exists (String a ""), s. simpl. rewrite Ea.
    repeat split; [discriminate|exact Hk].
Qed.

Lemma star_lazy_sound {R} (p : ascii -> bool) (s : string)
      (k : string -> option R) (m : R) :
  Re.star_lazy p s k = Some m ->
  exists w s', s = w +:+ s' /\ all_chars p w = true /\ k s' = Some m.
Proof.
  induction s as [|a s IH]; simpl.
  - destruct (k "") eqn:E; [|discriminate].
    intros [= ->]. exists "", "". auto.
  - destruct (k (String a s)) eqn:E.
    + intros [= ->]. exists "", (String a s). auto.
    + destruct (p a) eqn:Ea; [|discriminate].
      intros H. destruct (IH H) as (w & s' & -> & Hw & Hk).
      exists (String a w), s'. simpl. rewrite Ea, Hw. auto.
Qed.

Lemma rmatch_sound (r : Re.regex) (s : string) (g : Re.groups)
      (k : string -> Re.groups -> option Re.groups) (m : Re.groups) :
  Re.rmatch r s g k = Some m ->
  exists s' g', matches r s g s' g' /\ k s' g' = Some m.
Proof.
  revert s g k. induction r as [l|c|c|r1 IH1 r2 IH2|r1 IH1 r2 IH2|i r IH];
    intros s g k; simpl.
  - destruct (Re.strip_prefix l s) as [s'|] eqn:E; [|discriminate].
    intros Hk. apply strip_prefix_inv in E. eauto.
  - intros H. apply plus_greedy_sound in H as (w & s' & Hs & Hne & Hw & Hk).
    exists s', g. eauto 10.
  - intros H. apply star_lazy_sound in H as (w & s' & Hs & Hw & Hk).
    exists s', g. eauto 10.
  - destruct (Re.rmatch r1 s g k) as [m'|] eqn:E.
    + intros [= ->]. destruct (IH1 _ _ _ E) as (s' & g' & Hm & Hk). eauto.
    + intros H. destruct (IH2 _ _ _ H) as (s' & g' & Hm & Hk). eauto.
  - intros H. destruct (IH1 _ _ _ H) as (s1 & g1 & Hm1 & H2).
    destruct (IH2 _ _ _ H2) as (s' & g' & Hm2 & Hk). eauto 10.
  - intros H. destruct (IH _ _ _ H) as (s' & g1 & Hm & Hk). eauto 10.
Qed.

Lemma search_sound (r : Re.regex) (s : string) (m : Re.groups) :
  Re.search r s = Some m -> exists pre s0 s', s = pre +:+ s0 /\ matches r s0 ∅ s' m.
Proof.
  induction s as [|a s IH]; simpl.
  - destruct (Re.rmatch r "" ∅ _) as [m'|] eqn:E; [|discriminate].
    intros [= ->]. apply rmatch_sound in E as (s' & g' & Hm & [= ->]).
    exists "", "", s'. auto.
  - destruct (Re.rmatch r (String a s) ∅ _) as [m'|] eqn:E.
    + intros [= ->]. apply rmatch_sound in E as (s' & g' & Hm & [= ->]).
      exists "", (String a s), s'. auto.
    + intros H. destruct (IH H) as (pre & s0 & s' & -> & Hm).
      exists (String a pre), s0, s'. auto.
Qed.

Lemma length_append (w s : string) :
  String.length (w +:+ s) = (String.length w + String.length s)%nat.
Proof.
  induction w as [|a w IH]; [reflexivity|].
  rewrite append_String. simpl. rewrite IH. reflexivity.
Qed.

Lemma substring_prefix (w s : string) : substring 0 (String.length w) (w +:+ s) = w.
Proof.
  induction w as [|a w IH].
  - rewrite append_empty. destruct s; reflexivity.
  - rewrite append_String. simpl. rewrite IH. reflexivity.
Qed.

Lemma consumed_prefix (w s : string) : Re.consumed (w +:+ s) s = w.
Proof.
  unfold Re.consumed. rewrite length_append.
  replace (String.length w + String.length s - String.length s)%nat
    with (String.length w) by lia.
  apply substring_prefix.
Qed.

Lemma append_assoc (u v w : string) : (u +:+ v) +:+ w = u +:+ v +:+ w.
Proof.
  induction u as [|a u IH]; [reflexivity|].
  rewrite !append_String, IH. reflexivity.
Qed.

(** The three groups of a match of the entry pattern: digits, one of the
    three kinds, digits. *)
Lemma entry_pattern_groups (line : string) (m : Re.groups) :
  Re.search entry_pattern line = Some m ->
  exists w1 w2 w3,
    Re.group m 1 = w1 /\ Re.group m 2 = w2 /\ Re.group m 3 = w3
    /\ m !! 1%nat = Some w1 /\ m !! 2%nat = Some w2 /\ m !! 3%nat = Some w3
    /\ w1 <> "" /\ all_chars Re.is_digit w1 = true
    /\ w2 ∈ ["Insert"; "Update"; "Read"]
    /\ w3 <> "" /\ all_chars Re.is_digit w3 = true.
Proof.
  intros H. apply search_sound in H as (pre & s0 & s' & _ & H).
  unfold entry_pattern in H. cbn [matches] in H.
  destruct H as (s1 & g1 & [_ ->] & s2 & g2 & (g2' & (w1 & -> & Hne1 & Hw1 & ->) & ->)
                 & s3 & g3 & [_ ->] & s4 & g4 & (w & _ & _ & ->)
                 & s5 & g5 & (g5' & Hop & ->)
                 & s6 & g6 & [_ ->] & s7 & g7 & (g7' & (w3 & -> & Hne3 & Hw3 & ->) & ->)
                 & _ & ->).
  rewrite consumed_prefix in *.
  assert (Re.consumed s4 s5 ∈ ["Insert"; "Update"; "Read"]
          /\ g5' = <[1%nat := w1]> ∅) as [Hw2 ->].
  { destruct Hop as [[-> ->]|[[-> ->]|[-> ->]]]; rewrite consumed_prefix;
      (split; [|reflexivity]).
    - left.
    - right; left.
    - right; right; left. }
  exists w1, (Re.consumed s4 s5), w3. unfold Re.group.
  rewrite lookup_insert_ne, lookup_insert_ne, lookup_insert_eq by done.
  rewrite (lookup_insert_ne _ 3%nat 2%nat), lookup_insert_eq by done.
  rewrite lookup_insert_eq. simpl. repeat split; assumption.
Qed.

Lemma digit_value_range (a : ascii) : Re.is_digit a = true -> 0 <= digit_value a <= 9.
Proof.
  unfold Re.is_digit, digit_value. intros H.
  apply andb_true_iff in H as [H1 H2].
  apply Nat.leb_le in H1, H2. lia.
Qed.

Lemma int_acc_nonneg (w : string) (acc : Z) :
  all_chars Re.is_digit w = true -> 0 <= acc -> 0 <= int_acc acc w.
Proof.
  revert acc. induction w as [|a w IH]; intros acc Hw Hacc; simpl in *; [exact Hacc|].
  apply andb_true_iff in Hw as [Ha Hw]. apply IH; [exact Hw|].
  pose proof (digit_value_range a Ha). lia.
Qed.

(** ** parse_log_files *)

Lemma process_line_boundary (runs : list (list entry)) (current_run : list entry)
      (pre post : string) :
  process_line (runs, current_run) (pre +:+ "All Operations completed" +:+ post)
  = match current_run with
    | [] => (runs, [])
    | _ :: _ => (runs ++ [current_run], [])
    end.
Proof.
  unfold process_line.
  destruct (boundary_search pre post) as [m ->].
  destruct current_run; reflexivity.
Qed.

(** C2: a line that holds "All Operations completed" anywhere is handled as a
    boundary and nothing else: the buffer is closed if it has entries, the
    new buffer is empty, and no record is added, whatever else the line holds. *)
Theorem boundary_line_adds_no_record (runs : list (list entry))
        (current_run : list entry) (pre post : string) :
  let line := pre +:+ "All Operations completed" +:+ post in
  let st' := process_line (runs, current_run) line in
  st'.2 = []
  /\ st'.1 = match current_run with [] => runs | _ :: _ => runs ++ [current_run] end
  /\ records_of st' = records_of (runs, current_run).
Proof.
  cbv zeta. rewrite process_line_boundary. unfold records_of.
  destruct current_run as [|e es]; simpl.
  - auto.
  - repeat split. rewrite concat_app. simpl. rewrite !app_nil_r. reflexivity.
Qed.

(** A line that matches both patterns: the entry is not recorded. *)
Example boundary_wins_over_operation :
  is_Some (Re.search entry_pattern "[Second 5] Insert completed in 10 ms; All Operations completed")
  /\ process_line ([], []) "[Second 5] Insert completed in 10 ms; All Operations completed" = ([], [])
  /\ process_line ([], []) "[Second 5] Insert completed in 10 ms" = ([], [Entry 5 "Insert" 10]).
Proof. vm_compute. eauto. Qed.

Lemma process_line_nonempty (st : parser_state) (line : string) :
  nonempty_runs st.1 -> nonempty_runs (process_line st line).1.
Proof.
  destruct st as [runs cur]. unfold process_line, nonempty_runs. simpl. intros H.
  destruct (Re.search run_end_pattern line).
  - destruct cur; simpl; [exact H|].
    apply Forall_app. split; [exact H|]. constructor; [discriminate|constructor].
  - destruct (Re.search entry_pattern line); exact H.
Qed.

Lemma process_lines_nonempty (lines : list string) (st : parser_state) :
  nonempty_runs st.1 -> nonempty_runs (process_lines st lines).1.
Proof.
  unfold process_lines. revert st.
  induction lines as [|l lines IH]; intros st H; simpl; [exact H|].
  apply IH, process_line_nonempty, H.
Qed.

Lemma process_files_nonempty (files : list (list string)) (st : parser_state) :
  nonempty_runs st.1 -> nonempty_runs (process_files st files).1.
Proof.
  unfold process_files. revert st.
  induction files as [|f files IH]; intros st H; simpl; [exact H|].
  apply IH, process_lines_nonempty, H.
Qed.

Lemma finish_nonempty (st : parser_state) :
  nonempty_runs st.1 -> nonempty_runs (finish st).
Proof.
  destruct st as [runs cur]. unfold finish, nonempty_runs. simpl. intros H.
  destruct cur; [exact H|].
  apply Forall_app. split; [exact H|]. constructor; [discriminate|constructor].
Qed.

Lemma fold_left_concat {A B} (f : B -> A -> B) (ls : list (list A)) (b : B) :
  fold_left (fun b l => fold_left f l b) ls b = fold_left f (concat ls) b.
Proof.
  revert b. induction ls as [|l ls IH]; intros b; simpl; [reflexivity|].
  rewrite fold_left_app. apply IH.
Qed.

Lemma process_files_concat (files : list (list string)) (st : parser_state) :
  process_files st files = process_lines st (concat files).
Proof. unfold process_files, process_lines. apply (fold_left_concat process_line). Qed.

Lemma process_line_extract (runs : list (list entry)) (cur : list entry)
      (line : string) :
  process_line (runs, cur) line
  = match extract line with
    | Boundary =>
        match cur with
        | [] => (runs, [])
        | _ :: _ => (runs ++ [cur], [])
        end
    | Operation e => (runs, cur ++ [e])
    | Ignored => (runs, cur)
    end.
Proof.
  unfold process_line, extract.
  destruct (Re.search run_end_pattern line); [destruct cur; reflexivity|].
  destruct (Re.search entry_pattern line); reflexivity.
Qed.

Lemma extract_boundary (pre post : string) :
  extract (pre +:+ "All Operations completed" +:+ post) = Boundary.
Proof. unfold extract. destruct (boundary_search pre post) as [m ->]. reflexivity. Qed.

(** The loop and what follows it, from any state: the closed runs, then what
    the segmenter of the specification makes of the buffer and the lines. *)
Lemma finish_process_lines (lines : list string) (runs : list (list entry))
      (cur : list entry) :
  finish (process_lines (runs, cur) lines)
  = runs ++ spec_segmenter cur (map extract lines).
Proof.
  unfold process_lines. revert runs cur.
  induction lines as [|line lines IH]; intros runs cur; cbn [fold_left map].
  - simpl. destruct cur; [rewrite app_nil_r|]; reflexivity.
  - rewrite process_line_extract.
    destruct (extract line) as [|e|]; cbn [spec_segmenter].
    + destruct cur as [|e0 es]; rewrite IH; [reflexivity|].
      rewrite <- app_assoc. reflexivity.
    + apply IH.
    + apply IH.
Qed.

Lemma parse_log_files_segments (files : list (list string)) :
  parse_log_files files = spec_segmenter [] (map extract (concat files)).
Proof.
  unfold parse_log_files. rewrite process_files_concat. apply finish_process_lines.
Qed.

Lemma spec_segmenter_boundary_free (lines : list string) (rest : list tagged)
      (buffer : list entry) :
  boundary_free lines ->
  spec_segmenter buffer (map extract lines ++ rest)
  = spec_segmenter (buffer ++ records_in lines) rest.
Proof.
  unfold boundary_free, records_in. intros H. revert buffer.
  induction H as [|line lines Hline _ IH]; intros buffer; simpl.
  - rewrite app_nil_r. reflexivity.
  - destruct (extract line) as [|e|]; [contradiction| |]; simpl.
    + rewrite IH, <- app_assoc. reflexivity.
    + apply IH.
Qed.

Lemma spec_segmenter_twice (input1 input2 : list tagged) (buffer : list entry) :
  spec_segmenter buffer (input1 ++ Boundary :: Boundary :: input2)
  = spec_segmenter buffer (input1 ++ Boundary :: input2).
Proof.
  revert buffer. induction input1 as [|t input1 IH]; intros buffer; simpl.
  - destruct buffer; reflexivity.
  - destruct t; [destruct buffer; rewrite IH; reflexivity| |]; apply IH.
Qed.

(** C3: the runs the parser emits are those of the Run Segmenter of the
    specification on the lines of all files in their order, and none of them
    is empty.  A boundary line that arrives on an empty buffer emits nothing,
    so the second of two boundary lines in a row is without effect; a
    boundary line that arrives on a buffer with records emits exactly these
    records as one run and starts afresh; and the records left in the buffer
    after the last line are emitted as the last run. *)
Theorem segmenter_emits_nonempty_runs :
  (forall files,
      parse_log_files files = spec_segmenter [] (map extract (concat files)))
  /\ (forall files, nonempty_runs (parse_log_files files))
  /\ (forall lines pre post after,
        boundary_free lines -> records_in lines = [] ->
        parse_log_files [lines ++ (pre +:+ "All Operations completed" +:+ post) :: after]
        = parse_log_files [after])
  /\ (forall before pre post pre' post' after,
        parse_log_files [before ++ (pre +:+ "All Operations completed" +:+ post)
                                :: (pre' +:+ "All Operations completed" +:+ post')
                                :: after]
        = parse_log_files [before ++ (pre +:+ "All Operations completed" +:+ post)
                                  :: after])
  /\ (forall lines pre post after,
        boundary_free lines -> records_in lines <> [] ->
        parse_log_files [lines ++ (pre +:+ "All Operations completed" +:+ post) :: after]
        = records_in lines :: parse_log_files [after])
  /\ (forall lines,
        boundary_free lines ->
        parse_log_files [lines]
        = match records_in lines with
          | [] => []
          | _ :: _ => [records_in lines]
          end)
  /\ (forall runs pre post,
        process_line (runs, []) (pre +:+ "All Operations completed" +:+ post)
        = (runs, []))
  /\ (forall runs e es pre post,
        process_line (runs, e :: es) (pre +:+ "All Operations completed" +:+ post)
        = (runs ++ [e :: es], [])).
Proof.
  split; [exact parse_log_files_segments|].
  split.
  { intros files. unfold parse_log_files.
    apply finish_nonempty, process_files_nonempty. constructor. }
  split.
  { intros lines pre post after Hfree Hnone.
    rewrite !parse_log_files_segments. simpl. rewrite !app_nil_r.
    rewrite map_app. cbn [map]. rewrite extract_boundary.
    rewrite (spec_segmenter_boundary_free _ _ _ Hfree), Hnone. reflexivity. }
  split.
  { intros before pre post pre' post' after.
    rewrite !parse_log_files_segments. simpl. rewrite !app_nil_r.
    rewrite !map_app. cbn [map]. rewrite !extract_boundary.
    apply spec_segmenter_twice. }
  split.
  { intros lines pre post after Hfree Hsome.
    rewrite !parse_log_files_segments. simpl. rewrite !app_nil_r.
    rewrite map_app. cbn [map]. rewrite extract_boundary.
    rewrite (spec_segmenter_boundary_free _ _ _ Hfree). simpl.
    destruct (records_in lines); [contradiction|reflexivity]. }
  split.
  { intros lines Hfree.
    rewrite parse_log_files_segments. simpl. rewrite app_nil_r.
    rewrite <- (app_nil_r (map extract lines)).
    rewrite (spec_segmenter_boundary_free _ _ _ Hfree). reflexivity. }
  split; intros; apply process_line_boundary.
Qed.

(** The cases of the theorem on one log: records, a boundary, a boundary
    on the empty buffer, and records with no boundary after them. *)
Example segmenter_cases :
  let b := "run 1: All Operations completed" in
  let l1 := "[Second 0] Insert completed in 5 ms" in
  let l2 := "[Second 1] Read completed in 7 ms" in
  boundary_free [l1; "noise"] /\ records_in [l1; "noise"] = [Entry 0 "Insert" 5]
  /\ boundary_free ["noise"] /\ records_in ["noise"] = []
  /\ parse_log_files [[l1; "noise"; b; "noise"; b; l2]]
     = [[Entry 0 "Insert" 5]; [Entry 1 "Read" 7]].
Proof.
  cbv zeta. repeat split; try (vm_compute; reflexivity);
    repeat constructor; vm_compute; discriminate.
Qed.

(** Two boundary lines in a row: the second one emits nothing. *)
Example consecutive_boundaries :
  parse_log_files
    [[ "[Second 0] Insert completed in 5 ms";
       "All Operations completed";
       "All Operations completed";
       "[Second 1] Read completed in 7 ms" ]]
  = [[Entry 0 "Insert" 5]; [Entry 1 "Read" 7]].
Proof. vm_compute. reflexivity. Qed.

(** ** adjust_cumulative_seconds *)

Lemma py_max_ge_acc (xs : list Z) (x : Z) : x <= py_max x xs.
Proof.
  unfold py_max. revert x.
  induction xs as [|y xs IH]; intros x; simpl; [lia|].
  specialize (IH (Z.max x y)). lia.
Qed.

Lemma py_max_upper (xs : list Z) (x y : Z) : y ∈ x :: xs -> y <= py_max x xs.
Proof.
  unfold py_max. revert x.
  induction xs as [|z xs IH]; intros x H; simpl.
  - apply list_elem_of_singleton in H. lia.
  - pose proof (py_max_ge_acc xs (Z.max x z)) as Hacc. unfold py_max in Hacc.
    apply elem_of_cons in H as [->|H]; [lia|].
    apply elem_of_cons in H as [->|H]; [lia|].
    apply IH. right. exact H.
Qed.

Lemma py_max_elem (xs : list Z) (x : Z) : py_max x xs ∈ x :: xs.
Proof.
  unfold py_max. revert x.
  induction xs as [|z xs IH]; intros x; simpl; [left|].
  specialize (IH (Z.max x z)).
  apply elem_of_cons in IH as [E|IH].
  - rewrite E. destruct (Z.max_spec x z) as [[_ ->]|[_ ->]]; [right; left|left].
  - right. right. exact IH.
Qed.

Lemma fold_adjust_entry (i off : Z) (run : list entry) (acc : list adjusted_entry) :
  fold_left (adjust_entry i off) run acc = acc ++ adjusted_run i off run.
Proof.
  revert acc. induction run as [|e run IH]; intros acc; simpl.
  - rewrite app_nil_r. reflexivity.
  - rewrite IH. unfold adjust_entry. rewrite <- app_assoc. reflexivity.
Qed.

Lemma adjust_run_eq (acc : list adjusted_entry) (off i : Z) (run : list entry) :
  adjust_run (acc, off) (i, run) = (acc ++ adjusted_run i off run, advance off run).
Proof.
  unfold adjust_run. rewrite fold_adjust_entry. destruct run; reflexivity.
Qed.

Lemma adjust_loop_from (runs : list (list entry)) (i off : Z) (acc : list adjusted_entry) :
  fold_left adjust_run (enumerate i runs) (acc, off)
  = (acc ++ adjust_from i off runs, fold_left advance runs off).
Proof.
  revert i off acc.
  induction runs as [|run runs IH]; intros i off acc; cbn [enumerate fold_left adjust_from].
  - rewrite app_nil_r. reflexivity.
  - rewrite adjust_run_eq, IH, <- app_assoc. reflexivity.
Qed.

Lemma adjust_cumulative_seconds_eq (runs : list (list entry)) :
  adjust_cumulative_seconds runs = adjust_from 1 0 runs.
Proof.
  unfold adjust_cumulative_seconds, adjust_loop. rewrite adjust_loop_from. reflexivity.
Qed.

Lemma offset_after_eq (runs : list (list entry)) :
  offset_after runs = fold_left advance runs 0.
Proof.
  unfold offset_after, adjust_loop. rewrite adjust_loop_from. reflexivity.
Qed.

Lemma offset_after_snoc (pre : list (list entry)) (run : list entry) :
  offset_after (pre ++ [run]) = advance (offset_after pre) run.
Proof. rewrite !offset_after_eq, fold_left_app. reflexivity. Qed.

Lemma adjust_from_app (pre post : list (list entry)) (i off : Z) :
  adjust_from i off (pre ++ post)
  = adjust_from i off pre
    ++ adjust_from (i + Z.of_nat (length pre)) (fold_left advance pre off) post.
Proof.
  revert i off. induction pre as [|run pre IH]; intros i off; simpl.
  - f_equal. lia.
  - rewrite IH, <- app_assoc. do 3 f_equal. lia.
Qed.

Lemma copied_adjust_from (runs : list (list entry)) (i off : Z) :
  map copied (adjust_from i off runs) = concat runs.
Proof.
  revert i off. induction runs as [|run runs IH]; intros i off; simpl; [reflexivity|].
  rewrite map_app, IH. f_equal.
  unfold adjusted_run. rewrite map_map. simpl. apply map_id.
Qed.

(** C8: a record of a run gets its own second plus the offset left by the
    runs before it, a non-empty run advances the offset by its largest second
    plus one, the offset starts at 0, and the two runs of the example get the
    cumulative seconds 0, 2 and 3. *)
Theorem cumulative_second_adds_the_offset_of_prior_runs :
  (forall pre run post, exists after,
      adjust_cumulative_seconds (pre ++ run :: post)
      = adjust_cumulative_seconds pre
        ++ map (fun e => Adjusted e (Z.of_nat (length pre) + 1)
                                  (second e + offset_after pre)) run
        ++ after
      /\ map copied after = concat post)
  /\ (forall pre e es, exists max_second,
        max_second ∈ map second (e :: es)
        /\ (forall e', e' ∈ e :: es -> second e' <= max_second)
        /\ offset_after (pre ++ [e :: es]) = offset_after pre + (max_second + 1))
  /\ offset_after [] = 0
  /\ (forall op1 op2 op3,
        map cumulative_second
            (adjust_cumulative_seconds
               [[Entry 0 op1 5; Entry 2 op2 7]; [Entry 0 op3 3]])
        = [0; 2; 3]).
Proof.
  split; [|split; [|split]].
  - intros pre run post.
    eexists. rewrite !adjust_cumulative_seconds_eq, adjust_from_app. simpl.
    rewrite <- offset_after_eq. unfold adjusted_run.
    replace (1 + Z.of_nat (length pre)) with (Z.of_nat (length pre) + 1) by lia.
    split; [reflexivity|]. apply copied_adjust_from.
  - intros pre e es. exists (py_max (second e) (map second es)).
    split; [|split].
    + apply (py_max_elem (map second es) (second e)).
    + intros e' He'. apply py_max_upper.
      change (second e' ∈ map second (e :: es)).
      apply list_elem_of_fmap_2. exact He'.
    + rewrite offset_after_snoc. reflexivity.
  - reflexivity.
  - intros. reflexivity.
Qed.

(** Where a record of the output comes from: the run at some position [k],
    with the offset left by the [k] runs before it. *)
Lemma elem_of_adjust_from (runs : list (list entry)) (i off : Z) (a : adjusted_entry) :
  a ∈ adjust_from i off runs ->
  exists k r,
    runs !! k = Some r /\ copied a ∈ r /\ run a = i + Z.of_nat k
    /\ cumulative_second a = second (copied a) + fold_left advance (take k runs) off.
Proof.
  revert i off. induction runs as [|r runs IH]; intros i off; simpl.
  - intros H. apply elem_of_nil in H. contradiction.
  - intros H. apply elem_of_app in H as [H|H].
    + unfold adjusted_run in H. apply list_elem_of_fmap in H as (e & -> & He).
      exists 0%nat, r. simpl. repeat split; [exact He|lia].
    + destruct (IH _ _ H) as (k & r' & Hk & Hin & Hrun & Hcum).
      exists (S k), r'. simpl. repeat split; [exact Hk|exact Hin|lia|exact Hcum].
Qed.

Lemma advance_nonempty (off : Z) (r : list entry) (e : entry) :
  e ∈ r -> second e + 1 <= advance off r - off.
Proof.
  destruct r as [|e0 es]; intros H.
  - apply elem_of_nil in H. contradiction.
  - simpl. pose proof (py_max_upper (map second es) (second e0) (second e)) as Hm.
    assert (second e ∈ second e0 :: map second es) as Hin.
    { change (second e ∈ map second (e0 :: es)). apply list_elem_of_fmap_2. exact H. }
    specialize (Hm Hin). lia.
Qed.

(** The order within a run needs nothing; the order between a run and the
    next needs the seconds of the later run to be non-negative. *)
Lemma adjust_from_order (runs : list (list entry)) (i off : Z) (a b : adjusted_entry) :
  nonneg_seconds runs ->
  a ∈ adjust_from i off runs -> b ∈ adjust_from i off runs ->
  (run a = run b ->
   (second (copied a) ?= second (copied b))%Z
   = (cumulative_second a ?= cumulative_second b)%Z)
  /\ (run b = run a + 1 -> cumulative_second a < cumulative_second b).
Proof.
  intros Hnn Ha Hb.
  destruct (elem_of_adjust_from _ _ _ _ Ha) as (ka & ra & Hka & Hina & Hra & Hca).
  destruct (elem_of_adjust_from _ _ _ _ Hb) as (kb & rb & Hkb & Hinb & Hrb & Hcb).
  split; intros Hrun.
  - assert (ka = kb) as -> by lia.
    rewrite Hca, Hcb, !(Z.add_comm (second _)). symmetry. apply Z.add_compare_mono_l.
  - assert (kb = S ka) as -> by lia.
    rewrite (take_S_r _ _ _ Hka), fold_left_app in Hcb. simpl in Hcb.
    pose proof (advance_nonempty (fold_left advance (take ka runs) off) ra _ Hina) as Hadv.
    assert (0 <= second (copied b)) as Hpos.
    { unfold nonneg_seconds in Hnn. rewrite Forall_lookup in Hnn.
      specialize (Hnn _ _ Hkb). rewrite List.Forall_forall in Hnn.
      apply Hnn. apply list_elem_of_In. exact Hinb. }
    lia.
Qed.

(** C1: when every run has a record and no second is negative, two records
    of one run are ordered by cumulative second as they are by second, and a
    record of the next run lies strictly after every record of the run
    before; the run index of a record is the position of its run, from 1. *)
Theorem cumulative_second_orders_records (runs : list (list entry)) (a b : adjusted_entry) :
  nonempty_runs runs ->
  nonneg_seconds runs ->
  a ∈ adjust_cumulative_seconds runs ->
  b ∈ adjust_cumulative_seconds runs ->
  (run a = run b ->
   (second (copied a) ?= second (copied b))%Z
   = (cumulative_second a ?= cumulative_second b)%Z)
  /\ (run b = run a + 1 -> cumulative_second a < cumulative_second b)
  /\ (exists k r, runs !! k = Some r /\ copied a ∈ r /\ run a = Z.of_nat k + 1).
Proof.
  intros _ Hnn Ha Hb. rewrite adjust_cumulative_seconds_eq in Ha, Hb.
  destruct (adjust_from_order runs 1 0 a b Hnn Ha Hb) as [H1 H2].
  split; [exact H1|split; [exact H2|]].
  destruct (elem_of_adjust_from _ _ _ _ Ha) as (k & r & Hk & Hin & Hr & _).
  exists k, r. repeat split; [exact Hk|exact Hin|lia].
Qed.

Lemma cumulative_second_orders_records_witness :
  let runs := [[Entry 0 "Insert" 5; Entry 2 "Insert" 7]; [Entry 0 "Read" 3]] in
  nonempty_runs runs /\ nonneg_seconds runs
  /\ cumulative_second (Adjusted (Entry 2 "Insert" 7) 1 2)
     < cumulative_second (Adjusted (Entry 0 "Read" 3) 2 3).
Proof.
  cbv zeta.
  assert (nonempty_runs [[Entry 0 "Insert" 5; Entry 2 "Insert" 7]; [Entry 0 "Read" 3]]) as Hne
    by (repeat constructor; discriminate).
  assert (nonneg_seconds [[Entry 0 "Insert" 5; Entry 2 "Insert" 7]; [Entry 0 "Read" 3]]) as Hnn
    by (repeat constructor; simpl; lia).
  split; [exact Hne|split; [exact Hnn|]].
  apply (cumulative_second_orders_records
           [[Entry 0 "Insert" 5; Entry 2 "Insert" 7]; [Entry 0 "Read" 3]]
           (Adjusted (Entry 2 "Insert" 7) 1 2) (Adjusted (Entry 0 "Read" 3) 2 3) Hne Hnn).
  - vm_compute. right. left.
  - vm_compute. right. right. left.
  - reflexivity.
Defined.

(** ** adjust_cumulative_seconds on the store *)

Lemma heap_lookup_ext (h news : Heap.heap) (l : Heap.loc) (d : Heap.dict) :
  h !! l = Some d -> (h ++ news) !! l = Some d.
Proof. intros H. apply lookup_app_l_Some. exact H. Qed.

Lemma heap_lookup_new (h news : Heap.heap) (j : nat) :
  (h ++ news) !! (length h + j)%nat = news !! j.
Proof. rewrite lookup_app_r by lia. f_equal. lia. Qed.

Lemma heap_entry_at_obj (h : Heap.heap) (l : Heap.loc) (e : entry) :
  Heap.entry_at h l = Some e ->
  h !! l = Some (Heap.obj h l) /\ Heap.entry_of (Heap.obj h l) = Some e.
Proof.
  unfold Heap.entry_at, Heap.obj. destruct (h !! l) as [d|]; simpl; [auto|discriminate].
Qed.

Lemma heap_entry_of_second (d : Heap.dict) (e : entry) :
  Heap.entry_of d = Some e -> Heap.dict_int d "second" = Some (second e).
Proof.
  unfold Heap.entry_of. intros H.
  destruct (Heap.dict_int d "second") as [s|]; simpl in H; [|discriminate].
  destruct (Heap.dict_str d "operation") as [o|]; simpl in H; [|discriminate].
  destruct (Heap.dict_int d "duration") as [t|]; simpl in H; [|discriminate].
  injection H as <-. reflexivity.
Qed.

Lemma heap_getint_second (h : Heap.heap) (l : Heap.loc) (e : entry) :
  Heap.entry_at h l = Some e -> Heap.getint h l "second" = Some (second e).
Proof.
  intros H. apply heap_entry_at_obj in H as [Hl He].
  unfold Heap.getint. rewrite Hl. simpl. apply heap_entry_of_second, He.
Qed.

Lemma heap_entry_at_ext (h news : Heap.heap) (l : Heap.loc) (e : entry) :
  Heap.entry_at h l = Some e -> Heap.entry_at (h ++ news) l = Some e.
Proof.
  intros H. apply heap_entry_at_obj in H as [Hl He].
  unfold Heap.entry_at. rewrite (heap_lookup_ext _ news _ _ Hl). exact He.
Qed.

Lemma heap_obj_ext (h news : Heap.heap) (l : Heap.loc) (e : entry) :
  Heap.entry_at h l = Some e -> Heap.obj (h ++ news) l = Heap.obj h l.
Proof.
  intros H. apply heap_entry_at_obj in H as [Hl _].
  unfold Heap.obj at 1. rewrite (heap_lookup_ext _ news _ _ Hl). reflexivity.
Qed.

(** One turn of the inner loop: one object is allocated, the store is
    otherwise as before. *)
Lemma heap_adjust_entry (h : Heap.heap) (acc : list Heap.loc) (i off : Z)
      (l : Heap.loc) (e : entry) :
  Heap.entry_at h l = Some e ->
  Heap.adjust_entry i off (h, acc) l
  = Some (h ++ [Heap.adjusted_dict i (second e + off) (Heap.obj h l)], acc ++ [length h]).
Proof.
  intros H. pose proof (heap_getint_second _ _ _ H) as Hs.
  pose proof (heap_entry_at_obj _ _ _ H) as [Hl _].
  set (d := Heap.obj h l) in *.
  unfold Heap.adjust_entry, Heap.copy. rewrite Hl. simpl.
  unfold Heap.setitem at 2.
  rewrite (list_lookup_middle h [] d (length h) eq_refl). simpl.
  assert (Heap.getint (<[length h := <["run" := Heap.VInt i]> d]> (h ++ [d])) l "second"
          = Some (second e)) as ->.
  { unfold Heap.getint in *. rewrite list_lookup_insert_ne.
    - rewrite (heap_lookup_ext _ [d] _ _ Hl). rewrite Hl in Hs. exact Hs.
    - apply lookup_lt_Some in Hl. lia. }
  simpl. unfold Heap.setitem.
  rewrite list_lookup_insert_eq by (rewrite length_app; simpl; lia). simpl.
  rewrite list_insert_insert_eq.
  rewrite insert_app_r_alt by lia. rewrite Nat.sub_diag. simpl.
  reflexivity.
Qed.

Lemma heap_run_ext (h news : Heap.heap) (run : list Heap.loc) (es : list entry) :
  Forall2 (fun l e => Heap.entry_at h l = Some e) run es ->
  Forall2 (fun l e => Heap.entry_at (h ++ news) l = Some e) run es.
Proof.
  intros H. eapply Forall2_impl; [exact H|].
  intros l e. apply heap_entry_at_ext.
Qed.

Lemma heap_new_run_ext (h news : Heap.heap) (i off : Z)
      (run : list Heap.loc) (es : list entry) :
  Forall2 (fun l e => Heap.entry_at h l = Some e) run es ->
  Heap.new_run (h ++ news) i off run es = Heap.new_run h i off run es.
Proof.
  unfold Heap.new_run. induction 1 as [|l e run es Hl _ IH]; simpl; [reflexivity|].
  rewrite (heap_obj_ext _ _ _ _ Hl), IH. reflexivity.
Qed.

Lemma heap_fold_adjust_entry (i off : Z) (run : list Heap.loc) (es : list entry)
      (h : Heap.heap) (acc : list Heap.loc) :
  Forall2 (fun l e => Heap.entry_at h l = Some e) run es ->
  Heap.foldM (Heap.adjust_entry i off) run (h, acc)
  = Some (h ++ Heap.new_run h i off run es, acc ++ seq (length h) (length run)).
Proof.
  intros H. revert h acc H. revert es.
  induction run as [|l run IH]; intros es h acc H.
  - inversion H; subst. simpl. rewrite !app_nil_r. reflexivity.
  - inversion H as [|? e ? es' Hl Hrest]; subst.
    cbn [Heap.foldM]. rewrite (heap_adjust_entry _ _ _ _ _ _ Hl). simpl.
    rewrite (IH es') by (apply heap_run_ext; exact Hrest).
    rewrite (heap_new_run_ext _ _ _ _ _ _ Hrest).
    rewrite length_app. simpl. rewrite Nat.add_1_r, <- !app_assoc. reflexivity.
Qed.

Lemma heap_mapM_second (h : Heap.heap) (run : list Heap.loc) (es : list entry) :
  Forall2 (fun l e => Heap.entry_at h l = Some e) run es ->
  mapM (fun l => Heap.getint h l "second") run = Some (map second es).
Proof.
  intros H. apply mapM_Some. apply Forall2_fmap_r.
  eapply Forall2_impl; [exact H|].
  intros l e. apply heap_getint_second.
Qed.

(** One turn of the outer loop. *)
Lemma heap_adjust_run (h : Heap.heap) (acc : list Heap.loc) (off i : Z)
      (run : list Heap.loc) (es : list entry) :
  Forall2 (fun l e => Heap.entry_at h l = Some e) run es ->
  Heap.adjust_run (h, acc, off) (i, run)
  = Some (h ++ Heap.new_run h i off run es, acc ++ seq (length h) (length run),
          advance off es).
Proof.
  intros H. unfold Heap.adjust_run.
  rewrite (heap_fold_adjust_entry _ _ _ _ _ _ H). simpl.
  apply (heap_run_ext _ (Heap.new_run h i off run es)) in H.
  generalize dependent (h ++ Heap.new_run h i off run es). intros h' H.
  destruct H as [|l e run' es' Hl Hrest].
  - reflexivity.
  - rewrite (heap_getint_second _ _ _ Hl). simpl.
    rewrite (heap_mapM_second _ _ _ Hrest). reflexivity.
Qed.

Lemma heap_new_run_length (h : Heap.heap) (i off : Z) (run : list Heap.loc) (es : list entry) :
  Forall2 (fun l e => Heap.entry_at h l = Some e) run es ->
  length (Heap.new_run h i off run es) = length run.
Proof.
  intros H. unfold Heap.new_run.
  apply length_zip_with_l_eq, (Forall2_length _ _ _ H).
Qed.

(** The whole loop, started on a store that extends [h0]. *)
Lemma heap_adjust_loop (h0 : Heap.heap) (runs : list (list Heap.loc))
      (ess : list (list entry)) :
  Heap.holds h0 runs ess ->
  forall (news : Heap.heap) (acc : list Heap.loc) (i off : Z),
    Heap.foldM Heap.adjust_run (enumerate i runs) (h0 ++ news, acc, off)
    = Some (h0 ++ news ++ Heap.new_objects h0 i off runs ess,
            acc ++ seq (length (h0 ++ news)) (length (concat runs)),
            fold_left advance ess off).
Proof.
  unfold Heap.holds.
  induction 1 as [|run es runs ess Hrun _ IH]; intros news acc i off.
  - simpl. rewrite !app_nil_r. reflexivity.
  - cbn [enumerate Heap.foldM Heap.new_objects concat fold_left].
    rewrite (heap_adjust_run _ _ _ _ _ es) by (apply heap_run_ext; exact Hrun).
    rewrite (heap_new_run_ext _ _ _ _ _ _ Hrun). simpl.
    rewrite <- (app_assoc h0), IH.
    rewrite !length_app, (heap_new_run_length _ _ _ _ _ Hrun).
    rewrite seq_app, <- !app_assoc, Nat.add_assoc. reflexivity.
Qed.

Lemma heap_adjust_cumulative_seconds_eq (h : Heap.heap) (runs : list (list Heap.loc))
      (ess : list (list entry)) :
  Heap.holds h runs ess ->
  Heap.adjust_cumulative_seconds h runs
  = Some (h ++ Heap.new_objects h 1 0 runs ess, seq (length h) (length (concat runs))).
Proof.
  intros H. unfold Heap.adjust_cumulative_seconds.
  pose proof (heap_adjust_loop h runs ess H [] [] 1 0) as E.
  rewrite app_nil_r in E. rewrite E. reflexivity.
Qed.

Lemma heap_dict_int_insert (d : Heap.dict) (k k' : string) (v : Heap.value) :
  k <> k' -> Heap.dict_int (<[k' := v]> d) k = Heap.dict_int d k.
Proof. intros H. unfold Heap.dict_int. rewrite lookup_insert_ne by congruence. reflexivity. Qed.

Lemma heap_dict_str_insert (d : Heap.dict) (k k' : string) (v : Heap.value) :
  k <> k' -> Heap.dict_str (<[k' := v]> d) k = Heap.dict_str d k.
Proof. intros H. unfold Heap.dict_str. rewrite lookup_insert_ne by congruence. reflexivity. Qed.

(** The copy with its two new keys reads as the entry it was copied from,
    the run index and the cumulative second. *)
Lemma heap_adjusted_of (d : Heap.dict) (e : entry) (r c : Z) :
  Heap.entry_of d = Some e ->
  Heap.adjusted_of (Heap.adjusted_dict r c d) = Some (Adjusted e r c).
Proof.
  intros H. unfold Heap.adjusted_of, Heap.adjusted_dict.
  assert (Heap.entry_of (<["cumulative_second" := Heap.VInt c]> (<["run" := Heap.VInt r]> d))
          = Some e) as ->.
  { unfold Heap.entry_of in *.
    rewrite !heap_dict_int_insert, !heap_dict_str_insert by done. exact H. }
  simpl. rewrite (heap_dict_int_insert _ "run" "cumulative_second") by done.
  unfold Heap.dict_int. rewrite !lookup_insert_eq. reflexivity.
Qed.

Lemma heap_new_run_decodes (h : Heap.heap) (i off : Z) (run : list Heap.loc) (es : list entry) :
  Forall2 (fun l e => Heap.entry_at h l = Some e) run es ->
  Forall2 (fun nd a => Heap.adjusted_of nd = Some a)
          (Heap.new_run h i off run es) (adjusted_run i off es).
Proof.
  unfold Heap.new_run, adjusted_run.
  induction 1 as [|l e run es Hl _ IH]; simpl; constructor; [|exact IH].
  apply heap_adjusted_of. apply heap_entry_at_obj in Hl as [_ He]. exact He.
Qed.

Lemma heap_new_objects_decode (h : Heap.heap) (runs : list (list Heap.loc))
      (ess : list (list entry)) :
  Heap.holds h runs ess ->
  forall i off,
    Forall2 (fun nd a => Heap.adjusted_of nd = Some a)
            (Heap.new_objects h i off runs ess) (adjust_from i off ess).
Proof.
  unfold Heap.holds.
  induction 1 as [|run es runs ess Hrun _ IH]; intros i off; simpl; [constructor|].
  apply Forall2_app; [apply heap_new_run_decodes, Hrun|apply IH].
Qed.

Lemma heap_new_run_sources (h : Heap.heap) (i off : Z) (run : list Heap.loc) (es : list entry) :
  Forall2 (fun l e => Heap.entry_at h l = Some e) run es ->
  Forall2 (fun nd l => exists d r c, h !! l = Some d /\ nd = Heap.adjusted_dict r c d)
          (Heap.new_run h i off run es) run.
Proof.
  unfold Heap.new_run.
  induction 1 as [|l e run es Hl _ IH]; simpl; constructor; [|exact IH].
  apply heap_entry_at_obj in Hl as [Hl _]. eauto.
Qed.

Lemma heap_new_objects_sources (h : Heap.heap) (runs : list (list Heap.loc))
      (ess : list (list entry)) :
  Heap.holds h runs ess ->
  forall i off,
    Forall2 (fun nd l => exists d r c, h !! l = Some d /\ nd = Heap.adjusted_dict r c d)
            (Heap.new_objects h i off runs ess) (concat runs).
Proof.
  unfold Heap.holds.
  induction 1 as [|run es runs ess Hrun _ IH]; intros i off; simpl; [constructor|].
  apply Forall2_app; [apply heap_new_run_sources, Hrun|apply IH].
Qed.

(** The references [length h], [length h + 1], ... name the new objects. *)
Lemma heap_new_refs {B} (P : Heap.dict -> B -> Prop) (h news : Heap.heap) (bs : list B) :
  Forall2 P news bs ->
  Forall2 (fun l' b => (length h <= l')%nat
                       /\ exists nd, (h ++ news) !! l' = Some nd /\ P nd b)
          (seq (length h) (length news)) bs.
Proof.
  intros H. apply Forall2_same_length_lookup_2.
  - rewrite length_seq. apply (Forall2_length _ _ _ H).
  - intros j l' b Hl' Hb. apply lookup_seq in Hl' as [-> Hj].
    split; [lia|]. rewrite heap_lookup_new.
    destruct (lookup_lt_is_Some_2 news j Hj) as [nd Hnd].
    exists nd. split; [exact Hnd|].
    apply (Forall2_lookup_lr _ _ _ j _ _ H Hnd Hb).
Qed.

(** C10: on a store where the runs hold entries, the function returns; it
    allocates one new dict per entry, in the order of the concatenated runs;
    the new dict is the source dict with the keys 'run' and
    'cumulative_second' set, so it reads as the source entry with the two
    new fields; and every object that existed before, the inputs among them,
    is as it was. *)
Theorem adjust_cumulative_seconds_copies_its_inputs
        (h : Heap.heap) (runs : list (list Heap.loc)) (ess : list (list entry)) :
  Heap.holds h runs ess ->
  exists h' out,
    Heap.adjust_cumulative_seconds h runs = Some (h', out)
    /\ (forall l d, h !! l = Some d -> h' !! l = Some d)
    /\ NoDup out
    /\ Forall2 (fun l' l => (length h <= l')%nat
                  /\ exists d r c, h !! l = Some d
                                   /\ h' !! l' = Some (Heap.adjusted_dict r c d))
               out (concat runs)
    /\ Forall2 (fun l' a => Heap.adjusted_at h' l' = Some a)
               out (adjust_cumulative_seconds ess)
    /\ map copied (adjust_cumulative_seconds ess) = concat ess.
Proof.
  intros H.
  exists (h ++ Heap.new_objects h 1 0 runs ess), (seq (length h) (length (concat runs))).
  pose proof (heap_new_objects_sources h runs ess H 1 0) as Hsrc.
  pose proof (heap_new_objects_decode h runs ess H 1 0) as Hdec.
  pose proof (Forall2_length _ _ _ Hsrc) as Hlen.
  split; [apply heap_adjust_cumulative_seconds_eq, H|].
  split; [intros l d; apply heap_lookup_ext|].
  split; [apply NoDup_seq|].
  rewrite adjust_cumulative_seconds_eq, <- Hlen.
  split; [|split].
  - eapply Forall2_impl; [apply (heap_new_refs _ h _ _ Hsrc)|].
    intros l' l [Hfresh (nd & Hnd & d & r & c & Hd & ->)]. eauto 10.
  - eapply Forall2_impl; [apply (heap_new_refs _ h _ _ Hdec)|].
    intros l' a [_ (nd & Hnd & Ha)]. unfold Heap.adjusted_at. rewrite Hnd. exact Ha.
  - apply copied_adjust_from.
Qed.

Lemma adjust_cumulative_seconds_copies_its_inputs_witness :
  let e1 := Entry 0 "Insert" 5 in
  let e2 := Entry 2 "Read" 7 in
  let h := [Heap.dict_of_entry e1; Heap.dict_of_entry e2] in
  let runs := [[0%nat; 1%nat]; [0%nat]] in
  Heap.holds h runs [[e1; e2]; [e1]]
  /\ exists h' out,
      Heap.adjust_cumulative_seconds h runs = Some (h', out)
      /\ (forall l d, h !! l = Some d -> h' !! l = Some d).
Proof.
  cbv zeta.
  assert (Heap.holds [Heap.dict_of_entry (Entry 0 "Insert" 5);
                      Heap.dict_of_entry (Entry 2 "Read" 7)]
                     [[0%nat; 1%nat]; [0%nat]]
                     [[Entry 0 "Insert" 5; Entry 2 "Read" 7]; [Entry 0 "Insert" 5]]) as Hh
    by (repeat constructor; vm_compute; reflexivity).
  split; [exact Hh|].
  destruct (adjust_cumulative_seconds_copies_its_inputs _ _ _ Hh)
    as (h' & out & Hrun & Hframe & _).
  exists h', out. split; [exact Hrun|exact Hframe].
Defined.

(** ** Lists: filters, distinct values, accumulation *)

Lemma filter_all {A} (P : A -> Prop) `{forall x, Decision (P x)} (l : list A) :
  Forall P l -> filter P l = l.
Proof.
  induction 1 as [|x l Hx _ IH]; [reflexivity|].
  rewrite filter_cons_True by exact Hx. f_equal. exact IH.
Qed.

Lemma filter_none {A} (P : A -> Prop) `{forall x, Decision (P x)} (l : list A) :
  Forall (fun x => ~ P x) l -> filter P l = [].
Proof.
  induction 1 as [|x l Hx _ IH]; [reflexivity|].
  rewrite filter_cons_False by exact Hx. exact IH.
Qed.

Lemma elem_of_unique {A} `{EqDecision A} (l : list A) (x : A) :
  x ∈ unique l <-> x ∈ l.
Proof.
  induction l as [|a l IH]; simpl; [reflexivity|].
  rewrite !elem_of_cons, list_elem_of_filter, IH.
  destruct (decide (x = a)); tauto.
Qed.

Lemma NoDup_unique {A} `{EqDecision A} (l : list A) : NoDup (unique l).
Proof.
  induction l as [|a l IH]; simpl; constructor.
  - rewrite list_elem_of_filter. tauto.
  - apply NoDup_filter, IH.
Qed.

Lemma fold_left_accumulate {A B} (f : A -> list B) (l : list A) (acc : list B) :
  fold_left (fun acc x => acc ++ f x) l acc = acc ++ concat (map f l).
Proof.
  revert acc. induction l as [|x l IH]; intros acc; simpl.
  - rewrite app_nil_r. reflexivity.
  - rewrite IH, <- app_assoc. reflexivity.
Qed.

(** ** The outlier filter *)

Lemma remove_outliers_eq (df : frame) :
  remove_outliers df
  = concat (map (fun op => iqr_filter (subset_of op df)) (unique (map op_of df))).
Proof.
  unfold remove_outliers.
  apply (fold_left_accumulate (fun op => iqr_filter (subset_of op df)) _ []).
Qed.

Lemma iqr_filter_nil : iqr_filter [] = [].
Proof. reflexivity. Qed.

Lemma iqr_filter_elem (subset : frame) (r : adjusted_entry) :
  r ∈ iqr_filter subset -> r ∈ subset.
Proof.
  unfold iqr_filter.
  destruct (quantile (1 # 4) (map duration_of subset)) as [Q1|],
           (quantile (3 # 4) (map duration_of subset)) as [Q3|];
    try (intros H; apply elem_of_nil in H; contradiction).
  rewrite list_elem_of_filter. tauto.
Qed.

(** A filtered subset holds records of its own kind only. *)
Lemma subset_of_chunk (op op' : string) (df : frame) :
  subset_of op (iqr_filter (subset_of op' df))
  = if decide (op = op') then iqr_filter (subset_of op df) else [].
Proof.
  unfold subset_of at 1. destruct (decide (op = op')) as [<-|Hne].
  - apply filter_all. apply Forall_forall. intros r Hr.
    apply iqr_filter_elem in Hr. apply list_elem_of_filter in Hr. tauto.
  - apply filter_none. apply Forall_forall. intros r Hr.
    apply iqr_filter_elem in Hr. apply list_elem_of_filter in Hr. intros E.
    destruct Hr as [Hop _]. congruence.
Qed.

Lemma subset_of_chunks (op : string) (df : frame) (ops : list string) :
  NoDup ops ->
  subset_of op (concat (map (fun op' => iqr_filter (subset_of op' df)) ops))
  = if decide (op ∈ ops) then iqr_filter (subset_of op df) else [].
Proof.
  induction 1 as [|op' ops Hnotin _ IH]; simpl.
  - reflexivity.
  - unfold subset_of at 1. rewrite filter_app.
    fold (subset_of op (iqr_filter (subset_of op' df))).
    fold (subset_of op (concat (map (fun op' => iqr_filter (subset_of op' df)) ops))).
    rewrite subset_of_chunk, IH.
    destruct (decide (op = op')) as [->|Hne].
    + destruct (decide (op' ∈ ops)) as [Hin|_]; [contradiction|].
      destruct (decide (op' ∈ op' :: ops)) as [_|Hout]; [apply app_nil_r|].
      exfalso. apply Hout. left.
    + destruct (decide (op ∈ ops)) as [Hin|Hout],
               (decide (op ∈ op' :: ops)) as [Hin'|Hout']; try reflexivity.
      * exfalso. apply Hout'. right. exact Hin.
      * apply elem_of_cons in Hin'. tauto.
Qed.

(** The records of one kind that survive are the filtered subset of that
    kind: the loop treats every kind on its own. *)
Lemma subset_of_remove_outliers (op : string) (df : frame) :
  subset_of op (remove_outliers df) = iqr_filter (subset_of op df).
Proof.
  rewrite remove_outliers_eq, subset_of_chunks by apply NoDup_unique.
  destruct (decide (op ∈ unique (map op_of df))) as [Hin|Hout]; [reflexivity|].
  assert (subset_of op df = []) as ->; [|reflexivity].
  apply filter_none, Forall_forall. intros r Hr E. apply Hout.
  apply elem_of_unique. rewrite <- E. apply list_elem_of_fmap_2, Hr.
Qed.

(** ** Quantiles *)

Lemma Qfloor_position (m : Z) (q : Q) :
  0 <= m -> (0 <= q)%Q -> (q <= 1)%Q ->
  0 <= Qfloor (inject_Z m * q) <= m.
Proof.
  intros Hm Hq0 Hq1.
  assert (inject_Z 0 <= inject_Z m)%Q as Hm' by (rewrite <- Zle_Qle; exact Hm).
  change (inject_Z 0) with 0%Q in Hm'.
  split.
  - change 0 with (Qfloor 0). apply Qfloor_resp_le. nra.
  - rewrite <- (Qfloor_Z m) at 2. apply Qfloor_resp_le. nra.
Qed.

(** On a non-empty series the quantile is a number, the one obtained by
    linear interpolation between the values of closest rank. *)
Lemma quantile_interpolated (q : Q) (values : list Z) :
  values <> [] -> (0 <= q)%Q -> (q <= 1)%Q ->
  exists v, quantile q values = Some v /\ interpolated q values v.
Proof.
  intros Hne Hq0 Hq1. unfold quantile, interpolated.
  pose proof (merge_sort_Permutation Z.le values) as Hperm.
  pose proof (StronglySorted_merge_sort Z.le values) as Hsorted.
  pose proof (Permutation_length Hperm) as Hlen.
  destruct (merge_sort Z.le values) as [|v0 rest] eqn:E.
  { symmetry in Hperm. apply Permutation_nil_r in Hperm. contradiction. }
  rewrite <- E in *. cbv zeta. rewrite Hlen.
  assert (1 <= Z.of_nat (length values)) as Hn.
  { rewrite <- Hlen, E. simpl. lia. }
  set (n := Z.of_nat (length values)) in *.
  pose proof (Qfloor_position (n - 1) q ltac:(lia) Hq0 Hq1) as Hlo.
  set (lo := Qfloor (inject_Z (n - 1) * q)) in *.
  eexists. split; [reflexivity|].
  exists (merge_sort Z.le values),
         (nth (Z.to_nat lo) (merge_sort Z.le values) v0),
         (nth (Z.to_nat (Z.min (lo + 1) (n - 1))) (merge_sort Z.le values) v0).
  split; [exact Hperm|]. split; [exact Hsorted|].
  split; [|split; [|reflexivity]].
  - destruct (nth_lookup_or_length (merge_sort Z.le values) (Z.to_nat lo) v0) as [H|H];
      [exact H|]. lia.
  - destruct (nth_lookup_or_length (merge_sort Z.le values)
                                   (Z.to_nat (Z.min (lo + 1) (n - 1))) v0) as [H|H];
      [exact H|]. lia.
Qed.

Lemma iqr_filter_quartiles (subset : frame) :
  subset <> [] ->
  exists Q1 Q3,
    quantile (1 # 4) (map duration_of subset) = Some Q1
    /\ quantile (3 # 4) (map duration_of subset) = Some Q3
    /\ interpolated (1 # 4) (map duration_of subset) Q1
    /\ interpolated (3 # 4) (map duration_of subset) Q3
    /\ iqr_filter subset = filter (fun r => within_fences Q1 Q3 (duration_of r)) subset.
Proof.
  intros Hne.
  assert (map duration_of subset <> []) as Hne'.
  { destruct subset; [contradiction|discriminate]. }
  destruct (quantile_interpolated (1 # 4) _ Hne') as (Q1 & HQ1 & HI1); [lra|lra|].
  destruct (quantile_interpolated (3 # 4) _ Hne') as (Q3 & HQ3 & HI3); [lra|lra|].
  exists Q1, Q3. unfold iqr_filter. rewrite HQ1, HQ3. auto.
Qed.

(** C4: a partition of one kind with two records or more has quartiles
    [Q1] and [Q3], each interpolated linearly between the durations of
    closest rank, and the filter keeps the records of the partition whose
    duration lies within [Q1 - 1.5 IQR, Q3 + 1.5 IQR], those and no others;
    of the durations 10, 12, 11, 13, 1000 of Read it keeps the first four. *)
Theorem outlier_filter_keeps_the_records_within_the_fences (df : frame) (op : string) :
  (2 <= length (subset_of op df))%nat ->
  (exists Q1 Q3,
      interpolated (1 # 4) (map duration_of (subset_of op df)) Q1
      /\ interpolated (3 # 4) (map duration_of (subset_of op df)) Q3
      /\ subset_of op (remove_outliers df)
         = filter (fun r => within_fences Q1 Q3 (duration_of r)) (subset_of op df)
      /\ forall r,
          r ∈ remove_outliers df /\ op_of r = op
          <-> r ∈ df /\ op_of r = op
              /\ (Q1 - (3 # 2) * (Q3 - Q1) <= inject_Z (duration_of r))%Q
              /\ (inject_Z (duration_of r) <= Q3 + (3 # 2) * (Q3 - Q1))%Q)
  /\ (let read s d := Adjusted (Entry s "Read" d) 1 s in
      quantile (1 # 4) [10; 12; 11; 13; 1000] = Some (44 # 4)%Q
      /\ quantile (3 # 4) [10; 12; 11; 13; 1000] = Some (52 # 4)%Q
      /\ remove_outliers [read 0 10; read 1 12; read 2 11; read 3 13; read 4 1000]
         = [read 0 10; read 1 12; read 2 11; read 3 13]).
Proof.
  intros Hlen. split.
  - assert (subset_of op df <> []) as Hne.
    { intros E. rewrite E in Hlen. simpl in Hlen. lia. }
    destruct (iqr_filter_quartiles _ Hne) as (Q1 & Q3 & _ & _ & HI1 & HI3 & Hf).
    exists Q1, Q3. split; [exact HI1|]. split; [exact HI3|].
    assert (subset_of op (remove_outliers df)
            = filter (fun r => within_fences Q1 Q3 (duration_of r)) (subset_of op df)) as E.
    { rewrite subset_of_remove_outliers. exact Hf. }
    split; [exact E|].
    intros r. transitivity (r ∈ subset_of op (remove_outliers df)).
    + unfold subset_of. rewrite list_elem_of_filter. tauto.
    + rewrite E. unfold subset_of, within_fences. rewrite !list_elem_of_filter. tauto.
  - cbv zeta. repeat split; vm_compute; reflexivity.
Qed.

Lemma outlier_filter_keeps_the_records_within_the_fences_witness :
  let read s d := Adjusted (Entry s "Read" d) 1 s in
  let df := [read 0 10; read 1 12; read 2 11; read 3 13; read 4 1000] in
  (2 <= length (subset_of "Read" df))%nat
  /\ exists Q1 Q3,
      subset_of "Read" (remove_outliers df)
      = filter (fun r => within_fences Q1 Q3 (duration_of r)) (subset_of "Read" df).
Proof.
  cbv zeta.
  assert (2 <= length (subset_of "Read"
            [Adjusted (Entry 0 "Read" 10) 1 0; Adjusted (Entry 1 "Read" 12) 1 1;
             Adjusted (Entry 2 "Read" 11) 1 2; Adjusted (Entry 3 "Read" 13) 1 3;
             Adjusted (Entry 4 "Read" 1000) 1 4]))%nat as Hlen
    by (vm_compute; lia).
  split; [exact Hlen|].
  destruct (outlier_filter_keeps_the_records_within_the_fences _ "Read" Hlen)
    as [(Q1 & Q3 & _ & _ & E & _) _].
  exists Q1, Q3. exact E.
Defined.

Lemma quantile_single (d : Z) :
  quantile (1 # 4) [d] = Some (inject_Z d + (inject_Z d - inject_Z d) * (0 * (1 # 4) - 0))%Q
  /\ quantile (3 # 4) [d] = Some (inject_Z d + (inject_Z d - inject_Z d) * (0 * (3 # 4) - 0))%Q.
Proof. split; reflexivity. Qed.

Lemma iqr_filter_single (r : adjusted_entry) : iqr_filter [r] = [r].
Proof.
  unfold iqr_filter. cbn [map].
  destruct (quantile_single (duration_of r)) as [-> ->].
  apply filter_all. constructor; [|constructor].
  unfold within_fences. cbv zeta. split; lra.
Qed.

(** C9: a partition with fewer than two records comes out of the filter as
    it went in. *)
Theorem outlier_filter_keeps_small_partitions (df : frame) (op : string) :
  (length (subset_of op df) < 2)%nat ->
  subset_of op (remove_outliers df) = subset_of op df
  /\ iqr_filter (subset_of op df) = subset_of op df.
Proof.
  intros Hlen. rewrite subset_of_remove_outliers.
  assert (iqr_filter (subset_of op df) = subset_of op df) as E; [|split; exact E].
  destruct (subset_of op df) as [|r [|r' rest]].
  - apply iqr_filter_nil.
  - apply iqr_filter_single.
  - simpl in Hlen. lia.
Qed.

Lemma outlier_filter_keeps_small_partitions_witness :
  let df := [Adjusted (Entry 0 "Read" 1000) 1 0; Adjusted (Entry 1 "Insert" 3) 1 1;
             Adjusted (Entry 2 "Insert" 4) 1 2] in
  (length (subset_of "Read" df) < 2)%nat
  /\ subset_of "Read" (remove_outliers df) = subset_of "Read" df.
Proof.
  cbv zeta.
  assert (length (subset_of "Read"
            [Adjusted (Entry 0 "Read" 1000) 1 0; Adjusted (Entry 1 "Insert" 3) 1 1;
             Adjusted (Entry 2 "Insert" 4) 1 2]) < 2)%nat as Hlen
    by (vm_compute; lia).
  split; [exact Hlen|].
  exact (proj1 (outlier_filter_keeps_small_partitions _ "Read" Hlen)).
Defined.

(** ** plot_tat_growth_trend *)

Lemma trend_of_entries (entries : list adjusted_entry) :
  plot_tat_growth_trend entries
  = map (fit_trend (remove_outliers entries))
        (unique (map op_of (remove_outliers entries))).
Proof. destruct entries; reflexivity. Qed.

Lemma elem_of_trend (entries : list adjusted_entry) (t : trend) :
  t ∈ plot_tat_growth_trend entries <->
  exists r, r ∈ remove_outliers entries
            /\ t = fit_trend (remove_outliers entries) (op_of r).
Proof.
  rewrite trend_of_entries, list_elem_of_fmap. split.
  - intros (op & -> & Hop). apply elem_of_unique, list_elem_of_fmap in Hop.
    destruct Hop as (r & -> & Hr). eauto.
  - intros (r & Hr & ->). exists (op_of r). split; [reflexivity|].
    apply elem_of_unique, list_elem_of_fmap_2, Hr.
Qed.

(** The claim C5 as stated fails: four zero durations and one of 10 ms.  The
    quartiles are taken with the zeros, which makes 10 the outlier, and the
    line is fitted through the four zero-duration records; without the zeros
    the fit would be through the record of 10 ms. *)
Lemma trend_fit_includes_zero_durations :
  let insert s d := Adjusted (Entry s "Insert" d) 1 s in
  let entries := [insert 0 0; insert 1 0; insert 2 0; insert 3 0; insert 4 10] in
  plot_tat_growth_trend entries = [Trend "Insert" [0; 1; 2; 3] [0; 0; 0; 0]]
  /\ plot_tat_growth_trend (nonzero entries) = [Trend "Insert" [4] [10]]
  /\ ~ (forall es t, t ∈ plot_tat_growth_trend es -> Forall (fun d => 0 < d) (y t)).
Proof.
  intros insert entries.
  assert (plot_tat_growth_trend entries
          = [Trend "Insert" [0; 1; 2; 3] [0; 0; 0; 0]]) as E
    by (vm_compute; reflexivity).
  split; [exact E|]. split; [vm_compute; reflexivity|].
  intros H. specialize (H entries (Trend "Insert" [0; 1; 2; 3] [0; 0; 0; 0])).
  rewrite E in H. specialize (H ltac:(left)).
  simpl in H. inversion H as [|? ? Hpos _]. lia.
Qed.

(** C5, amended: the line of a kind is fitted through all records of the
    kind that pass the outlier filter, whose quartiles are those of all
    records of the kind; the duration plays no other part, and a record that
    passes the filter is fitted whether its duration is zero or not. *)
Theorem trend_fit_is_over_the_filtered_records (entries : list adjusted_entry) :
  (forall t, t ∈ plot_tat_growth_trend entries ->
     x t = map cumulative_second (iqr_filter (subset_of (trend_op t) entries))
     /\ y t = map duration_of (iqr_filter (subset_of (trend_op t) entries)))
  /\ (forall r, r ∈ iqr_filter (subset_of (op_of r) entries) ->
        exists t, t ∈ plot_tat_growth_trend entries
                  /\ trend_op t = op_of r
                  /\ cumulative_second r ∈ x t /\ duration_of r ∈ y t).
Proof.
  split.
  - intros t Ht. apply elem_of_trend in Ht as (r & _ & ->).
    unfold fit_trend. simpl. rewrite subset_of_remove_outliers. split; reflexivity.
  - intros r Hr.
    assert (r ∈ remove_outliers entries) as Hr'.
    { rewrite <- subset_of_remove_outliers in Hr.
      unfold subset_of in Hr. apply list_elem_of_filter in Hr. tauto. }
    exists (fit_trend (remove_outliers entries) (op_of r)).
    split; [apply elem_of_trend; eauto|]. split; [reflexivity|].
    unfold fit_trend. simpl. rewrite subset_of_remove_outliers.
    split.
    + apply (list_elem_of_fmap_2 cumulative_ms), Hr.
    + apply (list_elem_of_fmap_2 duration_of), Hr.
Qed.

(** The claim C6 as stated fails: one Read record.  One record survives the
    filter, fewer than two, and the loop still fits and draws a line for
    Read, through that one point. *)
Lemma trend_is_fitted_on_a_single_record :
  let entries := [Adjusted (Entry 0 "Read" 5) 1 0] in
  length (subset_of "Read" (remove_outliers entries)) = 1%nat
  /\ plot_tat_growth_trend entries = [Trend "Read" [0] [5]].
Proof. cbv zeta. split; vm_compute; reflexivity. Qed.

Lemma trend_of_kind (entries : list adjusted_entry) (op : string) :
  (1 <= length (subset_of op (remove_outliers entries)))%nat ->
  Trend op (map cumulative_second (subset_of op (remove_outliers entries)))
           (map duration_of (subset_of op (remove_outliers entries)))
  ∈ plot_tat_growth_trend entries.
Proof.
  intros Hlen.
  destruct (subset_of op (remove_outliers entries)) as [|r rest] eqn:Es;
    [simpl in Hlen; lia|].
  assert (r ∈ subset_of op (remove_outliers entries)) as Hin by (rewrite Es; left).
  apply list_elem_of_filter in Hin as [Hop Hin].
  apply elem_of_trend. exists r. split; [exact Hin|].
  unfold fit_trend. cbv zeta. rewrite Hop, Es. reflexivity.
Qed.

(** C6, amended: a line is fitted for the kinds that have a record left
    after the filter, one line per kind, one record being enough.  The line
    of a kind is fitted through all records of the kind that are left: its
    [x] are their cumulative seconds and its [y] their durations, in the
    order of the records.  A kind with one record left gets the line through
    that one point. *)
Theorem trend_is_fitted_for_every_surviving_kind (entries : list adjusted_entry) :
  (forall op, op ∈ map trend_op (plot_tat_growth_trend entries)
              <-> (1 <= length (subset_of op (remove_outliers entries)))%nat)
  /\ NoDup (map trend_op (plot_tat_growth_trend entries))
  /\ (forall t, t ∈ plot_tat_growth_trend entries ->
        x t = map cumulative_second (subset_of (trend_op t) (remove_outliers entries))
        /\ y t = map duration_of (subset_of (trend_op t) (remove_outliers entries))
        /\ length (x t) = length (subset_of (trend_op t) (remove_outliers entries))
        /\ length (y t) = length (x t))
  /\ (forall op,
        (1 <= length (subset_of op (remove_outliers entries)))%nat ->
        Trend op (map cumulative_second (subset_of op (remove_outliers entries)))
                 (map duration_of (subset_of op (remove_outliers entries)))
        ∈ plot_tat_growth_trend entries)
  /\ (forall op r,
        subset_of op (remove_outliers entries) = [r] ->
        Trend op [cumulative_second r] [duration_of r]
        ∈ plot_tat_growth_trend entries).
Proof.
  assert (map trend_op (plot_tat_growth_trend entries)
          = unique (map op_of (remove_outliers entries))) as E.
  { rewrite trend_of_entries, map_map. apply map_id. }
  split; [|split; [|split; [|split]]].
  - intros op. rewrite E, elem_of_unique, list_elem_of_fmap. split.
    + intros (r & -> & Hr).
      assert (r ∈ subset_of (op_of r) (remove_outliers entries)) as Hin
        by (apply list_elem_of_filter; auto).
      destruct (subset_of (op_of r) (remove_outliers entries)).
      * apply elem_of_nil in Hin. contradiction.
      * simpl. lia.
    + intros Hlen.
      destruct (subset_of op (remove_outliers entries)) as [|r rest] eqn:Es.
      * simpl in Hlen. lia.
      * assert (r ∈ subset_of op (remove_outliers entries)) as Hin by (rewrite Es; left).
        apply list_elem_of_filter in Hin as [Hop Hin]. eauto.
  - rewrite E. apply NoDup_unique.
  - intros t Ht. apply elem_of_trend in Ht as (r & _ & ->).
    unfold fit_trend. simpl. rewrite !length_map. auto.
  - apply trend_of_kind.
  - intros op r Es.
    pose proof (trend_of_kind entries op) as H. rewrite Es in H.
    apply H. simpl. lia.
Qed.

(** ** export_to_excel *)

Lemma fold_min_le_acc (xs : list Z) (x : Z) : fold_left Z.min xs x <= x.
Proof.
  revert x. induction xs as [|y xs IH]; intros x; simpl; [lia|].
  specialize (IH (Z.min x y)). lia.
Qed.

Lemma fold_min_lower (xs : list Z) (x y : Z) : y ∈ x :: xs -> fold_left Z.min xs x <= y.
Proof.
  revert x. induction xs as [|z xs IH]; intros x H; simpl.
  - apply list_elem_of_singleton in H. lia.
  - pose proof (fold_min_le_acc xs (Z.min x z)) as Hacc.
    apply elem_of_cons in H as [->|H]; [lia|].
    apply elem_of_cons in H as [->|H]; [lia|].
    apply IH. right. exact H.
Qed.

Lemma fold_min_elem (xs : list Z) (x : Z) : fold_left Z.min xs x ∈ x :: xs.
Proof.
  revert x. induction xs as [|z xs IH]; intros x; simpl; [left|].
  specialize (IH (Z.min x z)).
  apply elem_of_cons in IH as [E|IH].
  - rewrite E. destruct (Z.min_spec x z) as [[_ ->]|[_ ->]]; [left|right; left].
  - right. right. exact IH.
Qed.

Lemma agg_summarizes (durations : list Z) (st : stats) :
  agg durations = Some st -> summarizes st durations.
Proof.
  destruct durations as [|d ds]; simpl; [discriminate|].
  intros [= <-]. unfold summarizes. simpl Count. simpl Mean. simpl Min. simpl Max.
  split; [discriminate|]. split; [reflexivity|]. split; [|split; [|split]].
  - rewrite Qred_correct, Qmake_Qdiv. do 2 f_equiv.
    rewrite <- Pos.of_nat_succ. simpl length. lia.
  - apply fold_min_elem.
  - apply (py_max_elem ds d).
  - intros x Hx. split; [apply fold_min_lower, Hx|apply (py_max_upper ds d), Hx].
Qed.

(** The rows of a grouped table: the keys that occur, each with the
    statistics of the durations under that key. *)
Lemma elem_of_groupby_agg {K} `{EqDecision K} (le : K -> K -> Prop)
      `{forall a b, Decision (le a b)} (key : adjusted_entry -> K) (df : frame)
      (k : K) (st : stats) :
  (k, st) ∈ groupby_agg le key df
  <-> agg (map duration_of (filter (fun r => key r = k) df)) = Some st.
Proof.
  unfold groupby_agg. rewrite list_elem_of_omap. split.
  - intros (k' & _ & Hk).
    destruct (agg (map duration_of (filter (fun r => key r = k') df))) as [st'|] eqn:E;
      simpl in Hk; [|discriminate].
    injection Hk as -> ->. exact E.
  - intros E. exists k. rewrite E. split; [|reflexivity].
    rewrite merge_sort_Permutation, elem_of_unique.
    destruct (filter (fun r => key r = k) df) as [|r rest] eqn:Ef; [discriminate|].
    assert (r ∈ filter (fun r => key r = k) df) as Hr by (rewrite Ef; left).
    apply list_elem_of_filter in Hr as [<- Hr]. apply list_elem_of_fmap_2, Hr.
Qed.

Lemma group_of_nonzero {K} `{EqDecision K} (key : adjusted_entry -> K)
      (entries : list adjusted_entry) (k : K) :
  map duration_of (filter (fun r => key r = k) (nonzero entries))
  = group_durations key entries k.
Proof.
  unfold group_durations, nonzero. rewrite list_filter_filter. reflexivity.
Qed.

Lemma grouped_rows {K} `{EqDecision K} (le : K -> K -> Prop)
      `{forall a b, Decision (le a b)} (key : adjusted_entry -> K)
      (entries : list adjusted_entry) :
  (forall k st, (k, st) ∈ groupby_agg le key (nonzero entries) ->
                summarizes st (group_durations key entries k))
  /\ (forall k, k ∈ map fst (groupby_agg le key (nonzero entries))
                <-> group_durations key entries k <> []).
Proof.
  split.
  - intros k st Hrow. apply elem_of_groupby_agg in Hrow.
    rewrite group_of_nonzero in Hrow. apply agg_summarizes, Hrow.
  - intros k. rewrite list_elem_of_fmap. split.
    + intros ([k' st] & -> & Hrow). simpl. apply elem_of_groupby_agg in Hrow.
      rewrite group_of_nonzero in Hrow. intros E. rewrite E in Hrow. discriminate.
    + intros Hne.
      destruct (agg (group_durations key entries k)) as [st|] eqn:E.
      * exists (k, st). split; [reflexivity|].
        apply elem_of_groupby_agg. rewrite group_of_nonzero. exact E.
      * destruct (group_durations key entries k); [contradiction|discriminate].
Qed.

(** C7: both tables are built from the records of positive duration.  A row
    holds the count, mean, least and greatest of the positive durations
    under its key; a key has a row when a positive duration occurs under it,
    and not otherwise; of Insert 0, 10, 20 the row is 2, 15, 10, 20. *)
Theorem grouped_statistics_skip_zero_durations (entries : list adjusted_entry) :
  entries <> [] ->
  (exists wb,
      export_to_excel entries = Some wb
      /\ (forall op st, (op, st) ∈ consolidated wb ->
            summarizes st (group_durations op_of entries op))
      /\ (forall op, op ∈ map fst (consolidated wb)
            <-> group_durations op_of entries op <> [])
      /\ (forall k st, (k, st) ∈ run_stats wb ->
            summarizes st (group_durations (fun r => (run r, op_of r)) entries k))
      /\ (forall k, k ∈ map fst (run_stats wb)
            <-> group_durations (fun r => (run r, op_of r)) entries k <> []))
  /\ (let insert s d := Adjusted (Entry s "Insert" d) 1 s in
      exists raw,
        export_to_excel [insert 0 0; insert 1 10; insert 2 20]
        = Some (Workbook raw
                         [((1, "Insert"), Stats 2 (15 # 1) 10 20)]
                         [("Insert", Stats 2 (15 # 1) 10 20)])).
Proof.
  intros Hne. split.
  - destruct entries as [|r0 rest]; [contradiction|].
    eexists. split; [reflexivity|]. cbn [consolidated run_stats].
    pose proof (grouped_rows str_le op_of (r0 :: rest)) as [H1 H2].
    pose proof (grouped_rows run_op_le (fun r => (run r, op_of r)) (r0 :: rest)) as [H3 H4].
    auto.
  - cbv zeta. eexists. vm_compute. reflexivity.
Qed.

Lemma grouped_statistics_skip_zero_durations_witness :
  let insert s d := Adjusted (Entry s "Insert" d) 1 s in
  let entries := [insert 0 0; insert 1 10; insert 2 20] in
  entries <> []
  /\ exists wb,
      export_to_excel entries = Some wb
      /\ (forall op st, (op, st) ∈ consolidated wb ->
            summarizes st (group_durations op_of entries op)).
Proof.
  intros insert entries.
  assert (entries <> []) as Hne by discriminate.
  split; [exact Hne|].
  destruct (grouped_statistics_skip_zero_durations entries Hne)
    as [(wb & Hwb & Hrows & _) _].
  exists wb. split; [exact Hwb|exact Hrows].
Defined.

(** ** What the parser hands to the later stages *)

Lemma process_line_well_formed (st : parser_state) (line : string) :
  Forall well_formed (records_of st) ->
  Forall well_formed (records_of (process_line st line)).
Proof.
  destruct st as [runs cur]. unfold process_line, records_of. simpl. intros H.
  destruct (Re.search run_end_pattern line).
  - destruct cur; simpl; [exact H|].
    rewrite concat_app. simpl. rewrite !app_nil_r. exact H.
  - destruct (Re.search entry_pattern line) as [m|] eqn:E; simpl; [|exact H].
    rewrite app_assoc. apply Forall_app. split; [exact H|].
    constructor; [|constructor].
    destruct (entry_pattern_groups _ _ E)
      as (w1 & w2 & w3 & -> & -> & -> & _ & _ & _ & _ & Hw1 & Hw2 & _ & Hw3).
    unfold well_formed, int. simpl.
    split; [apply int_acc_nonneg; [exact Hw1|lia]|].
    split; [apply int_acc_nonneg; [exact Hw3|lia]|exact Hw2].
Qed.

Lemma process_files_well_formed (files : list (list string)) (st : parser_state) :
  Forall well_formed (records_of st) ->
  Forall well_formed (records_of (process_files st files)).
Proof.
  unfold process_files. revert st.
  induction files as [|lines files IH]; intros st H; simpl; [exact H|].
  apply IH. unfold process_lines. clear IH. revert st H.
  induction lines as [|l lines IH]; intros st H; simpl; [exact H|].
  apply IH, process_line_well_formed, H.
Qed.

(** Every entry the parser yields has a non-negative second, a non-negative
    duration and one of the three kinds. *)
Lemma parse_log_files_well_formed (files : list (list string)) :
  Forall (Forall well_formed) (parse_log_files files).
Proof.
  unfold parse_log_files.
  pose proof (process_files_well_formed files ([], []) ltac:(constructor)) as H.
  destruct (process_files ([], []) files) as [runs cur]. unfold records_of, finish in *.
  simpl in H. apply Forall_app in H as [Hruns Hcur].
  assert (Forall (Forall well_formed) runs) as Hruns'.
  { clear Hcur. induction runs as [|r runs IH]; [constructor|].
    simpl in Hruns. apply Forall_app in Hruns as [Hr Hruns].
    constructor; [exact Hr|apply IH, Hruns]. }
  destruct cur; [exact Hruns'|].
  apply Forall_app. split; [exact Hruns'|]. constructor; [exact Hcur|constructor].
Qed.

Lemma parse_log_files_nonneg (files : list (list string)) :
  nonneg_seconds (parse_log_files files).
Proof.
  unfold nonneg_seconds.
  eapply Forall_impl; [apply parse_log_files_well_formed|].
  intros r Hr. eapply Forall_impl; [exact Hr|].
  intros e He. apply He.
Qed.

(** The two stages together, as the scripts run them: on any log files the
    records of a run keep their order and the next run comes strictly later. *)
Corollary timeline_of_parsed_logs (files : list (list string)) (a b : adjusted_entry) :
  a ∈ adjust_cumulative_seconds (parse_log_files files) ->
  b ∈ adjust_cumulative_seconds (parse_log_files files) ->
  (run a = run b ->
   (second (copied a) ?= second (copied b))%Z
   = (cumulative_second a ?= cumulative_second b)%Z)
  /\ (run b = run a + 1 -> cumulative_second a < cumulative_second b).
Proof.
  intros Ha Hb. rewrite adjust_cumulative_seconds_eq in Ha, Hb.
  exact (adjust_from_order _ 1 0 a b (parse_log_files_nonneg files) Ha Hb).
Qed.

Example parse_sample :
  parse_log_files
    [[ "2024 [Second 0] worker-1 Insert completed in 5 ms";
       "noise";
       "[Second 12] x Read completed in 70 ms trailing";
       "All Operations completed";
       "All Operations completed" ];
     [ "[Second 3] Update completed in 9 ms" ]]
  = [[Entry 0 "Insert" 5; Entry 12 "Read" 70]; [Entry 3 "Update" 9]].
Proof. vm_compute. reflexivity. Qed.

(** * Further properties of the two scripts *)

(** ** parse_log_files: files, boundaries, order of the records *)

(** X1: the buffer is not reset between files: only the sequence of all lines
    counts, however it is cut into files. *)
Theorem file_boundaries_do_not_matter (files files' : list (list string)) :
  concat files = concat files' ->
  parse_log_files files = parse_log_files files'.
Proof.
  intros H. unfold parse_log_files. rewrite !process_files_concat, H. reflexivity.
Qed.

Lemma file_boundaries_do_not_matter_witness :
  let l1 := "[Second 0] Insert completed in 5 ms" in
  let l2 := "[Second 1] Read completed in 7 ms" in
  concat [[l1]; [l2]] = concat [[l1; l2]]
  /\ parse_log_files [[l1]; [l2]] = parse_log_files [[l1; l2]].
Proof.
  intros l1 l2.
  assert (concat [[l1]; [l2]] = concat [[l1; l2]]) as H by reflexivity.
  split; [exact H|]. exact (file_boundaries_do_not_matter _ _ H).
Defined.

Lemma process_line_with_closed (closed : list (list entry)) (st : parser_state)
      (line : string) :
  process_line (with_closed closed st) line = with_closed closed (process_line st line).
Proof.
  destruct st as [runs cur]. unfold with_closed, process_line. simpl.
  destruct (Re.search run_end_pattern line).
  - destruct cur; simpl; [reflexivity|]. rewrite app_assoc. reflexivity.
  - destruct (Re.search entry_pattern line); reflexivity.
Qed.

Lemma process_lines_with_closed (closed : list (list entry)) (lines : list string)
      (st : parser_state) :
  process_lines (with_closed closed st) lines
  = with_closed closed (process_lines st lines).
Proof.
  unfold process_lines. revert st.
  induction lines as [|l lines IH]; intros st; cbn [fold_left]; [reflexivity|].
  rewrite process_line_with_closed. apply IH.
Qed.

Lemma finish_with_closed (closed : list (list entry)) (st : parser_state) :
  finish (with_closed closed st) = closed ++ finish st.
Proof.
  destruct st as [runs cur]. unfold with_closed, finish. simpl.
  destruct cur; [reflexivity|]. rewrite app_assoc. reflexivity.
Qed.

Lemma process_line_closes (st : parser_state) (pre post : string) :
  process_line st (pre +:+ "All Operations completed" +:+ post) = (finish st, []).
Proof.
  destruct st as [runs cur]. rewrite process_line_boundary. destruct cur; reflexivity.
Qed.

(** X2: a boundary line cuts the log in two: what is parsed is what is parsed
    before the line followed by what is parsed after it. *)
Theorem boundary_line_splits_the_parse (before after : list string) (pre post : string) :
  parse_log_files [before ++ (pre +:+ "All Operations completed" +:+ post) :: after]
  = parse_log_files [before] ++ parse_log_files [after].
Proof.
  unfold parse_log_files. rewrite !process_files_concat. simpl. rewrite !app_nil_r.
  unfold process_lines at 1. rewrite fold_left_app. simpl.
  fold (process_lines ([], []) before). rewrite process_line_closes.
  set (closed := finish (process_lines ([], []) before)).
  fold (process_lines (closed, []) after).
  assert ((closed, []) = with_closed closed ([], [])) as ->
    by (unfold with_closed; simpl; rewrite app_nil_r; reflexivity).
  rewrite process_lines_with_closed. apply finish_with_closed.
Qed.

Lemma records_of_process_line (st : parser_state) (line : string) :
  records_of (process_line st line) = records_of st ++ record_of_line line.
Proof.
  destruct st as [runs cur]. unfold record_of_line, records_of, process_line. simpl.
  destruct (Re.search run_end_pattern line).
  - destruct cur; simpl; rewrite ?concat_app; simpl; rewrite ?app_nil_r; reflexivity.
  - destruct (Re.search entry_pattern line); simpl;
      rewrite ?app_nil_r, ?app_assoc; reflexivity.
Qed.

Lemma records_of_process_lines (lines : list string) (st : parser_state) :
  records_of (process_lines st lines)
  = records_of st ++ concat (map record_of_line lines).
Proof.
  unfold process_lines. revert st.
  induction lines as [|l lines IH]; intros st; simpl.
  - rewrite app_nil_r. reflexivity.
  - rewrite IH, records_of_process_line, <- app_assoc. reflexivity.
Qed.

Lemma concat_finish (st : parser_state) : concat (finish st) = records_of st.
Proof.
  destruct st as [runs cur]. unfold finish, records_of. simpl.
  destruct cur; [rewrite app_nil_r; reflexivity|].
  rewrite concat_app. simpl. rewrite app_nil_r. reflexivity.
Qed.

(** X3: no record is lost, doubled or moved: the runs, put end to end, are the
    records of the operation lines in the order of the lines, and a line
    gives one record at most. *)
Theorem runs_hold_the_records_in_line_order (files : list (list string)) :
  concat (parse_log_files files) = concat (map record_of_line (concat files))
  /\ (forall line, (length (record_of_line line) <= 1)%nat).
Proof.
  split.
  - unfold parse_log_files.
    rewrite concat_finish, process_files_concat, records_of_process_lines. reflexivity.
  - intros line. unfold record_of_line, process_line.
    destruct (Re.search run_end_pattern line); [simpl; lia|].
    destruct (Re.search entry_pattern line); simpl; lia.
Qed.

(** X4: every entry the parser yields is as the data model has it: the second
    and the duration are not negative and the kind is one of the three. *)
Theorem parser_yields_well_formed_entries (files : list (list string))
        (r : list entry) (e : entry) :
  r ∈ parse_log_files files -> e ∈ r ->
  0 <= second e /\ 0 <= duration e /\ operation e ∈ ["Insert"; "Update"; "Read"].
Proof.
  intros Hr He.
  pose proof (parse_log_files_well_formed files) as H.
  rewrite Forall_forall in H. specialize (H r Hr).
  rewrite Forall_forall in H. exact (H e He).
Qed.

Lemma parser_yields_well_formed_entries_witness :
  let files := [["x [Second 12] y Read completed in 70 ms z"]] in
  let e := Entry 12 "Read" 70 in
  [e] ∈ parse_log_files files /\ e ∈ [e]
  /\ 0 <= second e /\ 0 <= duration e /\ operation e ∈ ["Insert"; "Update"; "Read"].
Proof.
  intros files e.
  assert ([e] ∈ parse_log_files files) as Hr by (vm_compute; left).
  assert (e ∈ [e]) as He by left.
  split; [exact Hr|]. split; [exact He|].
  exact (parser_yields_well_formed_entries files [e] e Hr He).
Defined.

(** ** The entry pattern finds the record of a plain operation line *)

Lemma rmatch_lit (l s : string) (g : Re.groups) k :
  Re.rmatch (Re.Lit l) (l +:+ s) g k = k s g.
Proof. simpl. rewrite strip_prefix_app. reflexivity. Qed.

Lemma plus_greedy_longest {R} (p : ascii -> bool) (w s : string)
      (k : string -> option R) (m : R) :
  all_chars p w = true -> w <> "" -> stops p s = true -> k s = Some m ->
  Re.plus_greedy p (w +:+ s) k = Some m.
Proof.
  intros Hw Hne Hs Hk. induction w as [|a w IH]; [contradiction|].
  rewrite append_String. simpl in *.
  apply andb_true_iff in Hw as [Ha Hw]. rewrite Ha.
  destruct w as [|b w].
  - rewrite append_empty.
    assert (Re.plus_greedy p s k = None) as ->; [|exact Hk].
    destruct s as [|c s]; simpl in *; [reflexivity|].
    destruct (p c); [discriminate|reflexivity].
  - rewrite IH; [reflexivity|exact Hw|discriminate].
Qed.

Lemma star_lazy_now {R} (p : ascii -> bool) (s : string)
      (k : string -> option R) (m : R) :
  k s = Some m -> Re.star_lazy p s k = Some m.
Proof. intros Hk. destruct s; simpl; rewrite Hk; reflexivity. Qed.

Lemma star_lazy_skips {R} (mid s : string) (k : string -> option R) :
  all_chars filler mid = true ->
  (forall c u, filler c = true -> k (String c u) = None) ->
  Re.star_lazy (Re.in_class Re.Dot) (mid +:+ s) k
  = Re.star_lazy (Re.in_class Re.Dot) s k.
Proof.
  intros Hmid Hk. induction mid as [|a mid IH]; [reflexivity|].
  rewrite append_String. simpl in Hmid. apply andb_true_iff in Hmid as [Ha Hmid].
  cbn [Re.star_lazy]. rewrite (Hk _ _ Ha).
  assert (Re.in_class Re.Dot a = true) as ->.
  { unfold filler in Ha. simpl. apply andb_true_iff in Ha as [_ Ha]. exact Ha. }
  apply IH, Hmid.
Qed.

Lemma rmatch_kind (op s : string) (g : Re.groups) (rest : Re.regex) k :
  op ∈ ["Insert"; "Update"; "Read"] ->
  Re.rmatch (Re.Group 2 (Re.Alt (Re.Lit "Insert")
                                (Re.Alt (Re.Lit "Update") (Re.Lit "Read"))) ⋅ rest)
            (op +:+ s) g k
  = Re.rmatch rest s (<[2%nat := op]> g) k.
Proof.
  intros Hop. repeat (apply elem_of_cons in Hop as [->|Hop]);
    [| | |apply elem_of_nil in Hop; contradiction].
  - cbn [Re.rmatch]. rewrite strip_prefix_app, consumed_prefix.
    destruct (Re.rmatch rest s _ k); reflexivity.
  - cbn [Re.rmatch]. rewrite strip_prefix_app, consumed_prefix.
    change (Re.strip_prefix "Insert" ("Update" +:+ s)) with (@None string).
    change (Re.strip_prefix "Read" ("Update" +:+ s)) with (@None string).
    destruct (Re.rmatch rest s _ k); reflexivity.
  - cbn [Re.rmatch]. rewrite strip_prefix_app, consumed_prefix.
    change (Re.strip_prefix "Insert" ("Read" +:+ s)) with (@None string).
    change (Re.strip_prefix "Update" ("Read" +:+ s)) with (@None string).
    reflexivity.
Qed.

Lemma kind_needs_its_letter (c : ascii) (u : string) (g : Re.groups)
      (rest : Re.regex) k :
  filler c = true ->
  Re.rmatch (Re.Group 2 (Re.Alt (Re.Lit "Insert")
                                (Re.Alt (Re.Lit "Update") (Re.Lit "Read"))) ⋅ rest)
            (String c u) g k
  = None.
Proof.
  unfold filler. intros H.
  apply andb_true_iff in H as [H _]. apply andb_true_iff in H as [H HR].
  apply andb_true_iff in H as [HI HU].
  apply negb_true_iff in HI, HU, HR.
  cbn [Re.rmatch Re.strip_prefix]. rewrite HI, HU, HR. reflexivity.
Qed.

Lemma search_skips (r : Re.regex) (pre s : string) :
  (forall c u, not_bracket c = true ->
               Re.rmatch r (String c u) ∅ (fun _ g => Some g) = None) ->
  all_chars not_bracket pre = true ->
  Re.search r (pre +:+ s) = Re.search r s.
Proof.
  intros Hr Hpre. induction pre as [|a pre IH]; [reflexivity|].
  rewrite append_String. simpl in Hpre. apply andb_true_iff in Hpre as [Ha Hpre].
  cbn [Re.search]. rewrite (Hr _ _ Ha). apply IH, Hpre.
Qed.

Lemma search_here (r : Re.regex) (s : string) (m : Re.groups) :
  Re.rmatch r s ∅ (fun _ g => Some g) = Some m -> Re.search r s = Some m.
Proof. intros H. destruct s; simpl; rewrite H; reflexivity. Qed.

Lemma entry_pattern_on_operation_line (pre w1 mid op w3 post : string) :
  all_chars not_bracket pre = true ->
  w1 <> "" -> all_chars Re.is_digit w1 = true ->
  all_chars filler mid = true ->
  op ∈ ["Insert"; "Update"; "Read"] ->
  w3 <> "" -> all_chars Re.is_digit w3 = true ->
  Re.search entry_pattern (operation_line pre w1 mid op w3 post)
  = Some (<[3%nat := w3]> (<[2%nat := op]> (<[1%nat := w1]> ∅))).
Proof.
  intros Hpre Hne1 Hw1 Hmid Hop Hne3 Hw3. unfold operation_line.
  rewrite search_skips; [|intros c u Hc|exact Hpre].
  2:{ unfold not_bracket in Hc. apply negb_true_iff in Hc.
      unfold entry_pattern. cbn [Re.rmatch Re.strip_prefix]. rewrite Hc. reflexivity. }
  apply search_here. unfold entry_pattern.
  remember (Re.Group 2 (Re.Alt (Re.Lit "Insert")
                               (Re.Alt (Re.Lit "Update") (Re.Lit "Read")))
            ⋅ Re.Lit " completed in " ⋅ Re.Group 3 (Re.Plus Re.Digit) ⋅ Re.Lit " ms")
    as tail eqn:Etail.
  cbn [Re.rmatch]. rewrite strip_prefix_app.
  apply plus_greedy_longest; [exact Hw1|exact Hne1|reflexivity|].
  rewrite consumed_prefix, (strip_prefix_app "]").
  rewrite star_lazy_skips;
    [|exact Hmid|intros c u Hc; subst tail; apply kind_needs_its_letter, Hc].
  apply star_lazy_now. subst tail. rewrite rmatch_kind by exact Hop.
  cbn [Re.rmatch]. rewrite strip_prefix_app.
  apply plus_greedy_longest; [exact Hw3|exact Hne3|reflexivity|].
  rewrite consumed_prefix, (strip_prefix_app " ms"). reflexivity.
Qed.

(** X5: a line that is not a boundary line and has the plain shape of an
    operation line, with no opening bracket before the second marker and
    none of the letters I, U, R between the marker and the kind, adds the
    record it spells out: the second and the duration as decimal numbers and
    the kind. *)
Theorem operation_line_is_recorded (runs : list (list entry)) (current_run : list entry)
        (pre w1 mid op w3 post : string) :
  all_chars not_bracket pre = true ->
  w1 <> "" -> all_chars Re.is_digit w1 = true ->
  all_chars filler mid = true ->
  op ∈ ["Insert"; "Update"; "Read"] ->
  w3 <> "" -> all_chars Re.is_digit w3 = true ->
  Re.search run_end_pattern (operation_line pre w1 mid op w3 post) = None ->
  process_line (runs, current_run) (operation_line pre w1 mid op w3 post)
  = (runs, current_run ++ [Entry (int w1) op (int w3)]).
Proof.
  intros Hpre Hne1 Hw1 Hmid Hop Hne3 Hw3 Hend. unfold process_line.
  rewrite Hend, (entry_pattern_on_operation_line _ _ _ _ _ _ Hpre Hne1 Hw1 Hmid Hop Hne3 Hw3).
  unfold Re.group.
  rewrite lookup_insert_ne, lookup_insert_ne, lookup_insert_eq by done.
  rewrite (lookup_insert_ne _ 3%nat 2%nat), lookup_insert_eq by done.
  rewrite lookup_insert_eq. reflexivity.
Qed.

Lemma operation_line_is_recorded_witness :
  process_line ([], []) "2024-01-01 12:00 [Second 12] worker-3: Read completed in 70 ms (ok)"
  = ([], [Entry 12 "Read" 70]).
Proof.
  apply (operation_line_is_recorded [] [] "2024-01-01 12:00 " "12" " worker-3: " "Read"
                                    "70" " (ok)").
  - reflexivity.
  - discriminate.
  - reflexivity.
  - reflexivity.
  - right. right. left.
  - discriminate.
  - reflexivity.
  - vm_compute. reflexivity.
Defined.

(** ** adjust_cumulative_seconds: distance, bounds, composition *)

Lemma advance_ge (off : Z) (r : list entry) :
  Forall (fun e => 0 <= second e) r -> off <= advance off r.
Proof.
  destruct r as [|e es]; simpl; [lia|]. intros H.
  apply Forall_cons in H as [He _].
  pose proof (py_max_ge_acc (map second es) (second e)). lia.
Qed.

Lemma fold_advance_ge (l : list (list entry)) (off : Z) :
  nonneg_seconds l -> off <= fold_left advance l off.
Proof.
  unfold nonneg_seconds. intros H. revert off.
  induction H as [|r l Hr _ IH]; intros off; simpl; [lia|].
  pose proof (advance_ge off r Hr). specialize (IH (advance off r)). lia.
Qed.

Lemma fold_advance_take (runs : list (list entry)) (off : Z) (j k : nat) :
  nonneg_seconds runs -> (j <= k)%nat ->
  fold_left advance (take j runs) off <= fold_left advance (take k runs) off.
Proof.
  intros Hnn Hjk.
  rewrite <- (take_drop j (take k runs)), take_take, Nat.min_l by exact Hjk.
  rewrite fold_left_app. apply fold_advance_ge.
  unfold nonneg_seconds in *. apply Forall_drop, Forall_take, Hnn.
Qed.

Lemma adjust_from_far (runs : list (list entry)) (i off : Z) (a b : adjusted_entry) :
  nonneg_seconds runs ->
  a ∈ adjust_from i off runs -> b ∈ adjust_from i off runs ->
  run a < run b -> cumulative_second a < cumulative_second b.
Proof.
  intros Hnn Ha Hb Hrun.
  destruct (elem_of_adjust_from _ _ _ _ Ha) as (ka & ra & Hka & Hina & Hra & Hca).
  destruct (elem_of_adjust_from _ _ _ _ Hb) as (kb & rb & Hkb & Hinb & Hrb & Hcb).
  assert (S ka <= kb)%nat as Hk by lia.
  pose proof (fold_advance_take runs off _ _ Hnn Hk) as Hmono.
  rewrite (take_S_r _ _ _ Hka), fold_left_app in Hmono. simpl in Hmono.
  pose proof (advance_nonempty (fold_left advance (take ka runs) off) ra _ Hina) as Hadv.
  assert (0 <= second (copied b)) as Hpos.
  { unfold nonneg_seconds in Hnn. rewrite Forall_lookup in Hnn.
    specialize (Hnn _ _ Hkb). rewrite Forall_forall in Hnn. apply Hnn, Hinb. }
  lia.
Qed.

(** X6: a record of a later run lies strictly after every record of an earlier
    run, however many runs lie between and whether or not some of them are
    empty, as long as no second is negative. *)
Theorem later_runs_come_later (runs : list (list entry)) (a b : adjusted_entry) :
  nonneg_seconds runs ->
  a ∈ adjust_cumulative_seconds runs ->
  b ∈ adjust_cumulative_seconds runs ->
  run a < run b -> cumulative_second a < cumulative_second b.
Proof.
  intros Hnn Ha Hb. rewrite adjust_cumulative_seconds_eq in Ha, Hb.
  exact (adjust_from_far runs 1 0 a b Hnn Ha Hb).
Qed.

Lemma later_runs_come_later_witness :
  let runs := [[Entry 0 "Insert" 5; Entry 9 "Insert" 7]; []; [Entry 0 "Read" 3]] in
  nonneg_seconds runs
  /\ cumulative_second (Adjusted (Entry 9 "Insert" 7) 1 9)
     < cumulative_second (Adjusted (Entry 0 "Read" 3) 3 10).
Proof.
  intros runs.
  assert (nonneg_seconds runs) as Hnn by (repeat constructor; simpl; lia).
  split; [exact Hnn|].
  apply (later_runs_come_later runs (Adjusted (Entry 9 "Insert" 7) 1 9)
                               (Adjusted (Entry 0 "Read" 3) 3 10) Hnn).
  - vm_compute. right. left.
  - vm_compute. right. right. left.
  - reflexivity.
Defined.

Lemma adjust_from_bounds (runs : list (list entry)) (i off : Z) (a : adjusted_entry) :
  nonneg_seconds runs -> a ∈ adjust_from i off runs ->
  off <= cumulative_second a < fold_left advance runs off.
Proof.
  intros Hnn Ha.
  destruct (elem_of_adjust_from _ _ _ _ Ha) as (k & r & Hk & Hin & _ & Hc).
  pose proof (fold_advance_ge (take k runs) off) as Hlow.
  assert (nonneg_seconds (take k runs)) as Hnn'
    by (unfold nonneg_seconds in *; apply Forall_take, Hnn).
  specialize (Hlow Hnn').
  assert (0 <= second (copied a)) as Hpos.
  { unfold nonneg_seconds in Hnn. rewrite Forall_lookup in Hnn.
    specialize (Hnn _ _ Hk). rewrite Forall_forall in Hnn. apply Hnn, Hin. }
  pose proof (advance_nonempty (fold_left advance (take k runs) off) r _ Hin) as Hadv.
  assert (fold_left advance (take (S k) runs) off <= fold_left advance runs off) as Hup.
  { rewrite <- (firstn_all runs) at 2.
    apply fold_advance_take; [exact Hnn|]. apply lookup_lt_Some in Hk. lia. }
  rewrite (take_S_r _ _ _ Hk), fold_left_app in Hup. simpl in Hup. lia.
Qed.

(** X7: with no negative second, every cumulative second lies between 0 and the
    final offset, the final offset excluded: the offset is a strict upper
    bound of the time axis. *)
Theorem cumulative_seconds_stay_below_the_offset (runs : list (list entry))
        (a : adjusted_entry) :
  nonneg_seconds runs ->
  a ∈ adjust_cumulative_seconds runs ->
  0 <= cumulative_second a < offset_after runs.
Proof.
  intros Hnn Ha. rewrite adjust_cumulative_seconds_eq in Ha. rewrite offset_after_eq.
  exact (adjust_from_bounds runs 1 0 a Hnn Ha).
Qed.

Lemma cumulative_seconds_stay_below_the_offset_witness :
  let runs := [[Entry 0 "Insert" 5; Entry 9 "Insert" 7]; [Entry 4 "Read" 3]] in
  nonneg_seconds runs
  /\ 0 <= cumulative_second (Adjusted (Entry 4 "Read" 3) 2 14) < offset_after runs.
Proof.
  intros runs.
  assert (nonneg_seconds runs) as Hnn by (repeat constructor; simpl; lia).
  split; [exact Hnn|].
  apply (cumulative_seconds_stay_below_the_offset runs _ Hnn).
  vm_compute. right. right. left.
Defined.

Lemma advance_shift (off d : Z) (r : list entry) : advance (off + d) r = advance off r + d.
Proof. destruct r; simpl; lia. Qed.

Lemma fold_advance_shift (runs : list (list entry)) (off d : Z) :
  fold_left advance runs (off + d) = fold_left advance runs off + d.
Proof.
  revert off. induction runs as [|r runs IH]; intros off; simpl; [reflexivity|].
  rewrite advance_shift. apply IH.
Qed.

Lemma adjust_from_shift (runs : list (list entry)) (i off di d : Z) :
  adjust_from (i + di) (off + d) runs = map (shift di d) (adjust_from i off runs).
Proof.
  revert i off. induction runs as [|r runs IH]; intros i off; simpl; [reflexivity|].
  rewrite map_app. f_equal.
  - unfold adjusted_run. rewrite map_map. apply map_ext. intros e.
    unfold shift. simpl. f_equal. lia.
  - rewrite advance_shift, <- IH. f_equal. lia.
Qed.

(** X8: runs can be normalized in two parts: the second part is normalized on
    its own and then moved by the number of runs and by the final offset of
    the first part. *)
Theorem adjust_cumulative_seconds_app (runs1 runs2 : list (list entry)) :
  adjust_cumulative_seconds (runs1 ++ runs2)
  = adjust_cumulative_seconds runs1
    ++ map (shift (Z.of_nat (length runs1)) (offset_after runs1))
           (adjust_cumulative_seconds runs2)
  /\ offset_after (runs1 ++ runs2) = offset_after runs1 + offset_after runs2.
Proof.
  rewrite !adjust_cumulative_seconds_eq, !offset_after_eq, adjust_from_app. split.
  - f_equal. rewrite <- adjust_from_shift. reflexivity.
  - rewrite fold_left_app.
    pose proof (fold_advance_shift runs2 0 (fold_left advance runs1 0)) as E.
    rewrite Z.add_0_l in E. rewrite E. lia.
Qed.

(** X9: an empty run among the runs adds no record and leaves every cumulative
    second as it is; it takes up a run index all the same, so the records
    after it are numbered one higher. *)
Theorem empty_run_only_takes_an_index (pre post : list (list entry)) :
  adjust_cumulative_seconds (pre ++ [] :: post)
  = map (fun a => if decide (run a <= Z.of_nat (length pre)) then a else shift 1 0 a)
        (adjust_cumulative_seconds (pre ++ post)).
Proof.
  rewrite !adjust_cumulative_seconds_eq, !adjust_from_app. simpl.
  rewrite map_app. f_equal.
  - symmetry. erewrite map_ext_in; [apply map_id|].
    intros a Ha. apply list_elem_of_In in Ha.
    destruct (elem_of_adjust_from _ _ _ _ Ha) as (k & r & Hk & _ & Hr & _).
    apply lookup_lt_Some in Hk. rewrite decide_True by lia. reflexivity.
  - replace (1 + Z.of_nat (length pre) + 1) with ((1 + Z.of_nat (length pre)) + 1) by lia.
    rewrite <- (Z.add_0_r (fold_left advance pre 0)) at 1.
    rewrite adjust_from_shift. apply map_ext_in.
    intros a Ha. apply list_elem_of_In in Ha.
    destruct (elem_of_adjust_from _ _ _ _ Ha) as (k & r & _ & _ & Hr & _).
    rewrite decide_False by lia. reflexivity.
Qed.

(** X10: the two stages as the scripts chain them: whatever the log files hold,
    the parsed runs meet what the normalizer needs, so a record of a later
    run lies strictly after every record of an earlier run and no
    cumulative second is negative. *)
Theorem timeline_of_any_log_files (files : list (list string)) (a b : adjusted_entry) :
  a ∈ adjust_cumulative_seconds (parse_log_files files) ->
  b ∈ adjust_cumulative_seconds (parse_log_files files) ->
  (run a < run b -> cumulative_second a < cumulative_second b)
  /\ 0 <= cumulative_second a < offset_after (parse_log_files files).
Proof.
  intros Ha Hb. pose proof (parse_log_files_nonneg files) as Hnn.
  rewrite adjust_cumulative_seconds_eq in Ha, Hb. rewrite offset_after_eq. split.
  - exact (adjust_from_far _ 1 0 a b Hnn Ha Hb).
  - exact (adjust_from_bounds _ 1 0 a Hnn Ha).
Qed.

Lemma timeline_of_any_log_files_witness :
  let files := [["[Second 7] Insert completed in 5 ms"; "All Operations completed";
                 "[Second 0] Read completed in 3 ms"]] in
  let a := Adjusted (Entry 7 "Insert" 5) 1 7 in
  let b := Adjusted (Entry 0 "Read" 3) 2 8 in
  cumulative_second a < cumulative_second b.
Proof.
  intros files a b.
  assert (a ∈ adjust_cumulative_seconds (parse_log_files files)) as Ha
    by (vm_compute; left).
  assert (b ∈ adjust_cumulative_seconds (parse_log_files files)) as Hb
    by (vm_compute; right; left).
  apply (proj1 (timeline_of_any_log_files files a b Ha Hb)). reflexivity.
Defined.

(** ** adjust_cumulative_seconds on the store: what raises *)

Lemma heap_adjust_entry_extends (i off : Z) (h h1 : Heap.heap)
      (acc acc1 : list Heap.loc) (e : Heap.loc) :
  Heap.adjust_entry i off (h, acc) e = Some (h1, acc1) -> exists nd, h1 = h ++ [nd].
Proof.
  unfold Heap.adjust_entry, Heap.copy.
  destruct (h !! e) as [d|] eqn:He; simpl; [|discriminate].
  unfold Heap.setitem at 2.
  rewrite (list_lookup_middle h [] d (length h) eq_refl). simpl.
  destruct (Heap.getint _ e "second") as [s|]; simpl; [|discriminate].
  unfold Heap.setitem.
  rewrite list_lookup_insert_eq by (rewrite length_app; simpl; lia). simpl.
  intros [= <- _]. eexists.
  rewrite list_insert_insert_eq, insert_app_r_alt by lia.
  rewrite Nat.sub_diag. reflexivity.
Qed.

Lemma heap_adjust_entry_fails (i off : Z) (h : Heap.heap) (acc : list Heap.loc)
      (l : Heap.loc) (d : Heap.dict) :
  h !! l = Some d -> Heap.dict_int d "second" = None ->
  Heap.adjust_entry i off (h, acc) l = None.
Proof.
  intros Hl Hd. unfold Heap.adjust_entry, Heap.copy. rewrite Hl. simpl.
  unfold Heap.setitem at 2.
  rewrite (list_lookup_middle h [] d (length h) eq_refl). simpl.
  assert (Heap.getint (<[length h := <["run" := Heap.VInt i]> d]> (h ++ [d])) l "second"
          = None) as ->; [|reflexivity].
  unfold Heap.getint. rewrite list_lookup_insert_ne.
  - rewrite (heap_lookup_ext _ [d] _ _ Hl). exact Hd.
  - apply lookup_lt_Some in Hl. lia.
Qed.

Lemma heap_fold_entry_fails (i off : Z) (run : list Heap.loc) (h : Heap.heap)
      (acc : list Heap.loc) (l : Heap.loc) (d : Heap.dict) :
  l ∈ run -> h !! l = Some d -> Heap.dict_int d "second" = None ->
  Heap.foldM (Heap.adjust_entry i off) run (h, acc) = None.
Proof.
  intros Hin Hl Hd. revert h acc Hl.
  induction run as [|e run IH]; intros h acc Hl.
  - apply elem_of_nil in Hin. contradiction.
  - cbn [Heap.foldM].
    destruct (Heap.adjust_entry i off (h, acc) e) as [[h1 acc1]|] eqn:E; [|reflexivity].
    simpl. apply elem_of_cons in Hin as [->|Hin].
    + rewrite (heap_adjust_entry_fails _ _ _ _ _ _ Hl Hd) in E. discriminate.
    + apply heap_adjust_entry_extends in E as [nd ->].
      apply (IH Hin). apply heap_lookup_ext, Hl.
Qed.

Lemma heap_fold_entry_extends (i off : Z) (run : list Heap.loc) (h h1 : Heap.heap)
      (acc acc1 : list Heap.loc) :
  Heap.foldM (Heap.adjust_entry i off) run (h, acc) = Some (h1, acc1) ->
  exists news, h1 = h ++ news.
Proof.
  revert h acc. induction run as [|e run IH]; intros h acc; cbn [Heap.foldM].
  - intros [= <- _]. exists []. rewrite app_nil_r. reflexivity.
  - destruct (Heap.adjust_entry i off (h, acc) e) as [[h2 acc2]|] eqn:E;
      simpl; [|discriminate].
    intros H. apply heap_adjust_entry_extends in E as [nd ->].
    apply IH in H as [news ->]. exists (nd :: news).
    rewrite <- app_assoc. reflexivity.
Qed.

Lemma heap_adjust_run_extends (h h1 : Heap.heap) (acc acc1 : list Heap.loc)
      (off off1 i : Z) (run : list Heap.loc) :
  Heap.adjust_run (h, acc, off) (i, run) = Some (h1, acc1, off1) ->
  exists news, h1 = h ++ news.
Proof.
  unfold Heap.adjust_run.
  destruct (Heap.foldM _ run (h, acc)) as [[h2 acc2]|] eqn:E; simpl; [|discriminate].
  apply heap_fold_entry_extends in E as [news ->].
  destruct run as [|e es].
  - intros [= <- _ _]. eauto.
  - destruct (Heap.getint _ e "second"); simpl; [|discriminate].
    destruct (mapM _ es); simpl; [|discriminate].
    intros [= <- _ _]. eauto.
Qed.

Lemma heap_loop_fails (runs : list (list Heap.loc)) (l : Heap.loc) (d : Heap.dict) :
  l ∈ concat runs -> Heap.dict_int d "second" = None ->
  forall (h : Heap.heap) (acc : list Heap.loc) (i off : Z),
    h !! l = Some d ->
    Heap.foldM Heap.adjust_run (enumerate i runs) (h, acc, off) = None.
Proof.
  intros Hin Hd. induction runs as [|run runs IH]; intros h acc i off Hl.
  - apply elem_of_nil in Hin. contradiction.
  - cbn [enumerate Heap.foldM]. simpl in Hin. apply elem_of_app in Hin as [Hin|Hin].
    + assert (Heap.adjust_run (h, acc, off) (i, run) = None) as ->; [|reflexivity].
      unfold Heap.adjust_run.
      rewrite (heap_fold_entry_fails _ _ _ _ _ _ _ Hin Hl Hd). reflexivity.
    + destruct (Heap.adjust_run (h, acc, off) (i, run)) as [[[h1 acc1] off1]|] eqn:E;
        [|reflexivity].
      simpl. apply heap_adjust_run_extends in E as [news ->].
      apply (IH Hin). apply heap_lookup_ext, Hl.
Qed.

(** X11: a dict without the key 'second', or with a string under it, makes the
    whole call raise, wherever in the runs it stands: no list comes back. *)
Theorem entry_without_second_raises (h : Heap.heap) (runs : list (list Heap.loc))
        (l : Heap.loc) (d : Heap.dict) :
  l ∈ concat runs -> h !! l = Some d -> Heap.dict_int d "second" = None ->
  Heap.adjust_cumulative_seconds h runs = None.
Proof.
  intros Hin Hl Hd. unfold Heap.adjust_cumulative_seconds.
  rewrite (heap_loop_fails runs l d Hin Hd h [] 1 0 Hl). reflexivity.
Qed.

Lemma entry_without_second_raises_witness :
  let good := Heap.dict_of_entry (Entry 0 "Insert" 5) in
  let bad : Heap.dict := {[ "operation" := Heap.VStr "Read"; "duration" := Heap.VInt 3 ]} in
  Heap.adjust_cumulative_seconds [good; bad] [[0%nat]; [1%nat]] = None.
Proof.
  intros good bad.
  apply (entry_without_second_raises [good; bad] [[0%nat]; [1%nat]] 1%nat bad).
  - vm_compute. right. left.
  - reflexivity.
  - vm_compute. reflexivity.
Defined.

(** ** The outlier filter: what it keeps *)

Lemma sorted_lookup_le (s : list Z) (i j : nat) (a b : Z) :
  StronglySorted Z.le s -> s !! i = Some a -> s !! j = Some b -> (i <= j)%nat -> a <= b.
Proof.
  intros Hs Hi Hj Hij.
  destruct (decide (i = j)) as [->|Hne].
  { rewrite Hi in Hj. injection Hj as ->. lia. }
  rewrite <- (take_drop j s) in Hs.
  apply (StronglySorted_app_1_elem_of _ _ _ a b Hs).
  - apply list_elem_of_lookup. exists i. rewrite lookup_take_lt by lia. exact Hi.
  - apply list_elem_of_lookup. exists 0%nat. rewrite lookup_drop, Nat.add_0_r. exact Hj.
Qed.

(** The two quartiles of a non-empty series are in order, and some value of
    the series lies within the fences they give. *)
Lemma quartiles_leave_a_value (values : list Z) (Q1 Q3 : Q) :
  quantile (1 # 4) values = Some Q1 -> quantile (3 # 4) values = Some Q3 ->
  (Q1 <= Q3)%Q /\ exists c, c ∈ values /\ within_fences Q1 Q3 c.
Proof.
  unfold quantile.
  pose proof (merge_sort_Permutation Z.le values) as Hperm.
  pose proof (StronglySorted_merge_sort Z.le values) as Hs.
  destruct (merge_sort Z.le values) as [|v0 rest] eqn:E; [discriminate|].
  rewrite <- E in *. cbv zeta.
  set (s := merge_sort Z.le values) in *.
  set (m := Z.of_nat (length s) - 1).
  assert (0 <= m) as Hm by (unfold m; rewrite E; simpl; lia).
  assert (inject_Z 0 <= inject_Z m)%Q as Hm' by (rewrite <- Zle_Qle; exact Hm).
  change (inject_Z 0) with 0%Q in Hm'.
  set (p1 := (inject_Z m * (1 # 4))%Q). set (p3 := (inject_Z m * (3 # 4))%Q).
  pose proof (Qfloor_position m (1 # 4) Hm ltac:(lra) ltac:(lra)) as Hlo1.
  pose proof (Qfloor_position m (3 # 4) Hm ltac:(lra) ltac:(lra)) as Hlo3.
  fold p1 in Hlo1. fold p3 in Hlo3.
  assert (Qfloor p1 <= Qfloor p3) as Hlo13 by (apply Qfloor_resp_le; unfold p1, p3; lra).
  pose proof (Qfloor_le p1) as Hf1. pose proof (Qlt_floor p1) as Hf1'.
  pose proof (Qfloor_le p3) as Hf3. pose proof (Qlt_floor p3) as Hf3'.
  rewrite inject_Z_plus in Hf1', Hf3'.
  set (lo1 := Qfloor p1) in *. set (lo3 := Qfloor p3) in *.
  assert (forall i, 0 <= i <= m -> s !! Z.to_nat i = Some (nth (Z.to_nat i) s v0)) as Hnth.
  { intros i Hi. destruct (nth_lookup_or_length s (Z.to_nat i) v0) as [H|H]; [exact H|].
    unfold m in Hi. lia. }
  pose proof (Hnth lo1 ltac:(lia)) as Ha1.
  pose proof (Hnth (Z.min (lo1 + 1) m) ltac:(lia)) as Hb1.
  pose proof (Hnth lo3 ltac:(lia)) as Ha3.
  pose proof (Hnth (Z.min (lo3 + 1) m) ltac:(lia)) as Hb3.
  set (a1 := nth (Z.to_nat lo1) s v0) in *.
  set (b1 := nth (Z.to_nat (Z.min (lo1 + 1) m)) s v0) in *.
  set (a3 := nth (Z.to_nat lo3) s v0) in *.
  set (b3 := nth (Z.to_nat (Z.min (lo3 + 1) m)) s v0) in *.
  intros [= <-] [= <-].
  assert (a1 <= b1) as Hab1 by (apply (sorted_lookup_le s _ _ _ _ Hs Ha1 Hb1); lia).
  assert (a3 <= b3) as Hab3 by (apply (sorted_lookup_le s _ _ _ _ Hs Ha3 Hb3); lia).
  rewrite Zle_Qle in Hab1, Hab3.
  destruct (decide (lo1 = lo3)) as [Heq|Hne].
  - assert (a1 = a3) as Ea by (unfold a1, a3; rewrite Heq; reflexivity).
    assert (b1 = b3) as Eb by (unfold b1, b3; rewrite Heq; reflexivity).
    rewrite <- Ea, <- Eb in *. rewrite <- Heq in *.
    assert (0 <= inject_Z lo1)%Q as Hlo.
    { change 0%Q with (inject_Z 0). rewrite <- Zle_Qle. lia. }
    assert (0 <= (inject_Z b1 - inject_Z a1) * inject_Z m)%Q as HM
      by (apply Qmult_le_0_compat; lra).
    assert (0 <= (inject_Z b1 - inject_Z a1) * inject_Z lo1)%Q as HL
      by (apply Qmult_le_0_compat; lra).
    assert (0 <= (inject_Z b1 - inject_Z a1) * (p1 - inject_Z lo1))%Q as HF
      by (apply Qmult_le_0_compat; lra).
    unfold p1, p3 in *.
    split; [lra|].
    exists a1. split.
    + rewrite <- Hperm. apply list_elem_of_lookup. eauto.
    + unfold within_fences. cbv zeta. split; lra.
  - assert (b1 <= a3) as Hba by (apply (sorted_lookup_le s _ _ _ _ Hs Hb1 Ha3); lia).
    rewrite Zle_Qle in Hba.
    change (inject_Z 1) with 1%Q in Hf1', Hf3'.
    assert (0 <= (inject_Z b1 - inject_Z a1) * (1 - (p1 - inject_Z lo1)))%Q as HF1
      by (apply Qmult_le_0_compat; lra).
    assert (0 <= (inject_Z b3 - inject_Z a3) * (p3 - inject_Z lo3))%Q as HF3
      by (apply Qmult_le_0_compat; lra).
    assert (inject_Z a1 + (inject_Z b1 - inject_Z a1) * (p1 - inject_Z lo1)
            <= inject_Z a3)%Q as H1 by lra.
    assert (inject_Z a3
            <= inject_Z a3 + (inject_Z b3 - inject_Z a3) * (p3 - inject_Z lo3))%Q as H3
      by lra.
    split; [lra|].
    exists a3. split.
    + rewrite <- Hperm. apply list_elem_of_lookup. eauto.
    + unfold within_fences. cbv zeta. split; lra.
Qed.

Lemma iqr_filter_nonempty (subset : frame) : subset <> [] -> iqr_filter subset <> [].
Proof.
  intros Hne.
  destruct (iqr_filter_quartiles _ Hne) as (Q1 & Q3 & HQ1 & HQ3 & _ & _ & ->).
  destruct (quartiles_leave_a_value _ _ _ HQ1 HQ3) as [_ (c & Hc & Hin)].
  apply list_elem_of_fmap in Hc as (r & -> & Hr).
  intros E.
  assert (r ∈ filter (fun r => within_fences Q1 Q3 (duration_of r)) subset) as H
    by (apply list_elem_of_filter; auto).
  rewrite E in H. apply elem_of_nil in H. exact H.
Qed.

(** X12: the filter never removes every record of a kind: of each kind that
    occurs at least one record is left. *)
Theorem outlier_filter_never_empties_a_kind (df : frame) (op : string) :
  subset_of op df <> [] -> subset_of op (remove_outliers df) <> [].
Proof.
  intros Hne. rewrite subset_of_remove_outliers. apply iqr_filter_nonempty, Hne.
Qed.

Lemma outlier_filter_never_empties_a_kind_witness :
  let read s d := Adjusted (Entry s "Read" d) 1 s in
  let df := [read 0 1; read 1 1000000] in
  subset_of "Read" df <> [] /\ subset_of "Read" (remove_outliers df) <> [].
Proof.
  intros read df.
  assert (subset_of "Read" df <> []) as Hne by (vm_compute; discriminate).
  split; [exact Hne|]. exact (outlier_filter_never_empties_a_kind df "Read" Hne).
Defined.

(** X13: what the filter keeps of a kind it keeps in the order of the input, and
    it keeps nothing that was not there. *)
Theorem outlier_filter_keeps_a_sublist (df : frame) :
  (forall op, subset_of op (remove_outliers df) `sublist_of` subset_of op df)
  /\ (forall r, r ∈ remove_outliers df -> r ∈ df)
  /\ (length (remove_outliers df) <= length df)%nat.
Proof.
  assert (forall subset, iqr_filter subset `sublist_of` subset) as Hsub.
  { intros subset. unfold iqr_filter.
    destruct (quantile (1 # 4) (map duration_of subset)) as [Q1|],
             (quantile (3 # 4) (map duration_of subset)) as [Q3|];
      try apply sublist_nil_l.
    apply sublist_filter. }
  assert (forall ops, NoDup ops ->
            length (concat (map (fun op => iqr_filter (subset_of op df)) ops))
            <= length (filter (fun r => op_of r ∈ ops) df))%nat as Hlen.
  { induction 1 as [|op ops Hnotin _ IH]; simpl; [lia|].
    rewrite length_app.
    pose proof (sublist_length _ _ (Hsub (subset_of op df))) as H1.
    assert (length (subset_of op df) + length (filter (fun r => op_of r ∈ ops) df)
            <= length (filter (fun r => op_of r ∈ op :: ops) df))%nat; [|lia].
    clear -Hnotin. unfold subset_of. induction df as [|r df IH]; simpl; [lia|].
    rewrite !filter_cons.
    destruct (decide (op_of r = op)) as [<-|Hne].
    - rewrite decide_False by exact Hnotin. rewrite decide_True by left.
      simpl. lia.
    - destruct (decide (op_of r ∈ ops)) as [Hin|Hout].
      + rewrite decide_True by (right; exact Hin). simpl. lia.
      + rewrite decide_False; [lia|].
        intros H. apply elem_of_cons in H as [H|H]; contradiction. }
  split; [|split].
  - intros op. rewrite subset_of_remove_outliers. apply Hsub.
  - intros r Hr.
    assert (r ∈ subset_of (op_of r) (remove_outliers df)) as H
      by (apply list_elem_of_filter; auto).
    rewrite subset_of_remove_outliers in H. apply iqr_filter_elem in H.
    apply list_elem_of_filter in H. tauto.
  - rewrite remove_outliers_eq.
    etransitivity; [apply Hlen, NoDup_unique|]. apply length_filter.
Qed.



(** ** plot_tat_growth_trend: the kinds and the points *)

Lemma unique_block (c : frame) (x : string) (l : list string) :
  c <> [] -> Forall (fun r => op_of r = x) c ->
  unique (map op_of c ++ l) = x :: filter (fun y => y <> x) (unique l).
Proof.
  intros Hne Hc. induction Hc as [|r c Hr Hc IH]; [contradiction|].
  simpl. rewrite Hr. f_equal.
  destruct c as [|r' c'].
  - reflexivity.
  - rewrite IH by discriminate.
    rewrite filter_cons_False by tauto.
    apply filter_all, Forall_forall. intros y Hy.
    apply list_elem_of_filter in Hy. tauto.
Qed.

Lemma unique_of_chunks (f : string -> frame) (ops : list string) :
  NoDup ops ->
  (forall op, op ∈ ops -> f op <> [] /\ Forall (fun r => op_of r = op) (f op)) ->
  unique (map op_of (concat (map f ops))) = ops.
Proof.
  induction 1 as [|op ops Hnotin _ IH]; intros Hf; simpl; [reflexivity|].
  destruct (Hf op ltac:(left)) as [Hne Hall].
  rewrite map_app, (unique_block _ op _ Hne Hall).
  rewrite IH by (intros op' Hin; apply Hf; right; exact Hin).
  f_equal. apply filter_all, Forall_forall. intros y Hy ->. contradiction.
Qed.

Lemma kinds_after_filter (df : frame) :
  unique (map op_of (remove_outliers df)) = unique (map op_of df).
Proof.
  rewrite remove_outliers_eq. apply unique_of_chunks; [apply NoDup_unique|].
  intros op Hop. apply elem_of_unique, list_elem_of_fmap in Hop as (r & -> & Hr).
  split.
  - apply iqr_filter_nonempty. intros E.
    assert (r ∈ subset_of (op_of r) df) as H by (apply list_elem_of_filter; auto).
    rewrite E in H. apply elem_of_nil in H. exact H.
  - apply Forall_forall. intros r' Hr'. apply iqr_filter_elem in Hr'.
    apply list_elem_of_filter in Hr'. tauto.
Qed.

(** X15: every kind of the input gets its line, in the order in which the kinds
    first occur, and the lines share out the filtered records among them:
    put end to end, their points are the filtered frame. *)
Theorem every_kind_gets_a_trend (entries : list adjusted_entry) :
  map trend_op (plot_tat_growth_trend entries) = unique (map op_of entries)
  /\ concat (map x (plot_tat_growth_trend entries))
     = map cumulative_second (remove_outliers entries)
  /\ concat (map y (plot_tat_growth_trend entries))
     = map duration_of (remove_outliers entries).
Proof.
  rewrite trend_of_entries, kinds_after_filter, !map_map.
  split; [apply map_id|].
  assert (forall (g : adjusted_entry -> Z),
            concat (map (fun op => map g (subset_of op (remove_outliers entries)))
                        (unique (map op_of entries)))
            = map g (remove_outliers entries)) as H.
  { intros g.
    rewrite (remove_outliers_eq entries) at 1.
    generalize (unique (map op_of entries)). intros ops.
    induction ops as [|op ops IH]; simpl; [reflexivity|].
    rewrite map_app, IH, subset_of_remove_outliers. reflexivity. }
  split; [apply (H cumulative_ms)|apply (H duration_of)].
Qed.

(** ** export_to_excel: the rows of the two tables *)

Lemma sum_acc (l : list Z) (acc : Z) : fold_left Z.add l acc = acc + sum l.
Proof.
  unfold sum. revert acc. induction l as [|d l IH]; intros acc; simpl; [lia|].
  rewrite (IH (acc + d)), (IH (0 + d)). lia.
Qed.

Lemma sum_cons (d : Z) (l : list Z) : sum (d :: l) = d + sum l.
Proof. unfold sum at 1. simpl. apply sum_acc. Qed.

Lemma sum_app (l1 l2 : list Z) : sum (l1 ++ l2) = sum l1 + sum l2.
Proof.
  induction l1 as [|d l1 IH]; simpl; [unfold sum at 2; simpl; lia|].
  rewrite !sum_cons, IH. lia.
Qed.

Lemma sum_Permutation (l1 l2 : list Z) : l1 ≡ₚ l2 -> sum l1 = sum l2.
Proof.
  induction 1 as [|d l1 l2 _ IH|d d' l|l1 l2 l3 _ IH1 _ IH2].
  - reflexivity.
  - rewrite !sum_cons, IH. reflexivity.
  - rewrite !sum_cons. lia.
  - congruence.
Qed.

Lemma sum_bounds (l : list Z) (lo hi : Z) :
  (forall d, d ∈ l -> lo <= d <= hi) ->
  Z.of_nat (length l) * lo <= sum l <= Z.of_nat (length l) * hi.
Proof.
  induction l as [|d l IH]; intros H.
  - unfold sum. simpl. lia.
  - rewrite sum_cons. pose proof (H d ltac:(left)).
    specialize (IH (fun d' Hd' => H d' ltac:(right; exact Hd'))).
    rewrite length_cons. lia.
Qed.

Lemma summarizes_order (st : stats) (durations : list Z) :
  summarizes st durations ->
  1 <= Count st /\ (inject_Z (Min st) <= Mean st)%Q /\ (Mean st <= inject_Z (Max st))%Q.
Proof.
  intros (Hne & Hcount & Hmean & _ & _ & Hrange).
  pose proof (sum_bounds durations (Min st) (Max st) Hrange) as [Hlo Hhi].
  assert (1 <= Z.of_nat (length durations)) as Hn
    by (destruct durations; [contradiction|simpl; lia]).
  assert (0 < inject_Z (Z.of_nat (length durations)))%Q as Hn'.
  { change 0%Q with (inject_Z 0). rewrite <- Zlt_Qlt. lia. }
  split; [lia|]. rewrite Hmean. split.
  - apply Qle_shift_div_l; [exact Hn'|].
    rewrite <- inject_Z_mult, <- Zle_Qle. lia.
  - apply Qle_shift_div_r; [exact Hn'|].
    rewrite <- inject_Z_mult, <- Zle_Qle. lia.
Qed.

(** X16: in both tables every row counts at least one record, and its mean lies
    between its minimum and its maximum. *)
Theorem row_mean_lies_between_min_and_max (entries : list adjusted_entry) (wb : workbook) :
  export_to_excel entries = Some wb ->
  (forall op st, (op, st) ∈ consolidated wb ->
     1 <= Count st /\ (inject_Z (Min st) <= Mean st)%Q /\ (Mean st <= inject_Z (Max st))%Q)
  /\ (forall k st, (k, st) ∈ run_stats wb ->
     1 <= Count st /\ (inject_Z (Min st) <= Mean st)%Q /\ (Mean st <= inject_Z (Max st))%Q).
Proof.
  destruct entries as [|r0 rest]; [discriminate|].
  intros [= <-]. cbn [consolidated run_stats].
  pose proof (grouped_rows str_le op_of (r0 :: rest)) as [H1 _].
  pose proof (grouped_rows run_op_le (fun r => (run r, op_of r)) (r0 :: rest)) as [H3 _].
  split; intros k st Hrow; eapply summarizes_order; eauto.
Qed.

Lemma row_mean_lies_between_min_and_max_witness :
  let insert s d := Adjusted (Entry s "Insert" d) 1 s in
  let entries := [insert 0 0; insert 1 10; insert 2 25] in
  exists wb,
    export_to_excel entries = Some wb
    /\ forall op st, (op, st) ∈ consolidated wb ->
         1 <= Count st /\ (inject_Z (Min st) <= Mean st)%Q
         /\ (Mean st <= inject_Z (Max st))%Q.
Proof.
  intros insert entries.
  destruct (export_to_excel entries) as [wb|] eqn:E; [|vm_compute in E; discriminate].
  exists wb. split; [reflexivity|].
  exact (proj1 (row_mean_lies_between_min_and_max entries wb E)).
Defined.

Lemma counts_over_keys {K} `{EqDecision K} (key : adjusted_entry -> K) (df : frame)
      (ks : list K) :
  NoDup ks ->
  sum (map (fun k => Z.of_nat (length (filter (fun r => key r = k) df))) ks)
  = Z.of_nat (length (filter (fun r => key r ∈ ks) df)).
Proof.
  induction 1 as [|k ks Hnotin _ IH]; simpl.
  - rewrite filter_none; [reflexivity|].
    apply Forall_forall. intros r _ H. apply elem_of_nil in H. exact H.
  - rewrite sum_cons, IH. clear IH.
    induction df as [|r df IHdf]; simpl; [reflexivity|].
    rewrite !filter_cons.
    destruct (decide (key r = k)) as [<-|Hne].
    + rewrite decide_False by exact Hnotin. rewrite decide_True by left.
      simpl length. lia.
    + destruct (decide (key r ∈ ks)) as [Hin|Hout].
      * rewrite decide_True by (right; exact Hin). simpl length. lia.
      * rewrite decide_False; [lia|].
        intros H. apply elem_of_cons in H as [H|H]; contradiction.
Qed.

Lemma counts_of_rows {K} `{EqDecision K} (key : adjusted_entry -> K) (df : frame)
      (ks : list K) :
  map (fun row => Count row.2)
      (omap (fun k => pair k <$> agg (map duration_of (filter (fun r => key r = k) df))) ks)
  = filter (fun c => c <> 0)
           (map (fun k => Z.of_nat (length (filter (fun r => key r = k) df))) ks).
Proof.
  induction ks as [|k ks IH]; [reflexivity|].
  cbn [map omap list_omap]. rewrite filter_cons.
  destruct (filter (fun r => key r = k) df) as [|r rest] eqn:E.
  - rewrite decide_False by (simpl; lia). simpl. exact IH.
  - rewrite decide_True by (simpl; lia). cbn [map agg fmap option_fmap option_map].
    cbn [map snd Count]. rewrite IH, !length_cons, length_map. reflexivity.
Qed.

Lemma sum_filter_nonzero (l : list Z) : sum (filter (fun c => c <> 0) l) = sum l.
Proof.
  induction l as [|c l IH]; [reflexivity|].
  rewrite filter_cons. destruct (decide (c <> 0)) as [Hc|Hc].
  - rewrite !sum_cons, IH. reflexivity.
  - rewrite sum_cons, IH. lia.
Qed.

Lemma counts_add_up {K} `{EqDecision K} (le : K -> K -> Prop)
      `{forall a b, Decision (le a b)} (key : adjusted_entry -> K) (df : frame) :
  sum (map (fun row => Count row.2) (groupby_agg le key df)) = Z.of_nat (length df).
Proof.
  unfold groupby_agg. rewrite counts_of_rows, sum_filter_nonzero.
  rewrite (sum_Permutation _
             (map (fun k => Z.of_nat (length (filter (fun r => key r = k) df)))
                  (unique (map key df)))).
  - rewrite counts_over_keys by apply NoDup_unique. f_equal. f_equal.
    apply filter_all, Forall_forall. intros r Hr.
    apply elem_of_unique, list_elem_of_fmap_2, Hr.
  - apply fmap_Permutation, merge_sort_Permutation.
Qed.

(** X17: each table counts every record of positive duration once: the counts of
    its rows add up to the number of such records. *)
Theorem counts_add_up_to_the_positive_records (entries : list adjusted_entry)
        (wb : workbook) :
  export_to_excel entries = Some wb ->
  sum (map (fun row => Count row.2) (consolidated wb)) = Z.of_nat (length (nonzero entries))
  /\ sum (map (fun row => Count row.2) (run_stats wb)) = Z.of_nat (length (nonzero entries))
  /\ length (raw_data wb) = length entries.
Proof.
  destruct entries as [|r0 rest]; [discriminate|].
  intros [= <-]. cbn [consolidated run_stats raw_data].
  split; [apply counts_add_up|]. split; [apply counts_add_up|].
  simpl. rewrite length_map. reflexivity.
Qed.

Lemma counts_add_up_to_the_positive_records_witness :
  let entries := [Adjusted (Entry 0 "Insert" 0) 1 0; Adjusted (Entry 1 "Read" 10) 1 1;
                  Adjusted (Entry 0 "Read" 25) 2 2] in
  exists wb,
    export_to_excel entries = Some wb
    /\ sum (map (fun row => Count row.2) (run_stats wb)) = 2.
Proof.
  intros entries.
  destruct (export_to_excel entries) as [wb|] eqn:E; [|vm_compute in E; discriminate].
  exists wb. split; [reflexivity|].
  exact (proj1 (proj2 (counts_add_up_to_the_positive_records entries wb E))).
Defined.

Lemma omap_keys {K V} (f : K -> option (K * V)) (ks : list K) :
  (forall k, k ∈ ks -> exists v, f k = Some (k, v)) ->
  map fst (omap f ks) = ks.
Proof.
  induction ks as [|k ks IH]; intros H; [reflexivity|].
  cbn [omap list_omap]. destruct (H k ltac:(left)) as [v ->]. simpl. f_equal.
  apply IH. intros k' Hk'. apply H. right. exact Hk'.
Qed.

Lemma keys_of_rows {K} `{EqDecision K} (le : K -> K -> Prop)
      `{forall a b, Decision (le a b)} (key : adjusted_entry -> K) (df : frame) :
  map fst (groupby_agg le key df) = merge_sort le (unique (map key df)).
Proof.
  unfold groupby_agg. apply omap_keys. intros k Hk.
  rewrite merge_sort_Permutation in Hk.
  apply elem_of_unique, list_elem_of_fmap in Hk as (r & -> & Hr).
  assert (r ∈ filter (fun r' => key r' = key r) df) as Hin
    by (apply list_elem_of_filter; auto).
  destruct (filter (fun r' => key r' = key r) df) as [|r' rest].
  - apply elem_of_nil in Hin. contradiction.
  - simpl. eauto.
Qed.

Lemma str_le_total : Total str_le.
Proof.
  intros a b. unfold str_le.
  destruct (String.leb_total a b) as [H|H]; rewrite H; simpl; auto.
Qed.

Lemma run_op_le_total : Total run_op_le.
Proof.
  intros [i a] [j b]. unfold run_op_le. simpl.
  destruct (Z.lt_trichotomy i j) as [Hlt|[->|Hgt]]; [auto| |auto].
  destruct (str_le_total a b); auto.
Qed.

(** X18: each table has one row per key that occurs among the records of
    positive duration, and the rows come in ascending order of the key: by
    kind, or by run and then by kind. *)
Theorem rows_are_sorted_one_per_key (entries : list adjusted_entry) (wb : workbook) :
  export_to_excel entries = Some wb ->
  (Sorted str_le (map fst (consolidated wb))
   /\ NoDup (map fst (consolidated wb))
   /\ forall op, op ∈ map fst (consolidated wb) <-> op ∈ map op_of (nonzero entries))
  /\ (Sorted run_op_le (map fst (run_stats wb))
      /\ NoDup (map fst (run_stats wb))
      /\ forall k, k ∈ map fst (run_stats wb)
                   <-> k ∈ map (fun r => (run r, op_of r)) (nonzero entries)).
Proof.
  destruct entries as [|r0 rest]; [discriminate|].
  intros [= <-]. cbn [consolidated run_stats]. rewrite !keys_of_rows.
  split; (split; [|split]).
  - apply (Sorted_merge_sort str_le (Total0 := str_le_total)).
  - rewrite merge_sort_Permutation. apply NoDup_unique.
  - intros op. rewrite merge_sort_Permutation. apply elem_of_unique.
  - apply (Sorted_merge_sort run_op_le (Total0 := run_op_le_total)).
  - rewrite merge_sort_Permutation. apply NoDup_unique.
  - intros k. rewrite merge_sort_Permutation. apply elem_of_unique.
Qed.

Lemma rows_are_sorted_one_per_key_witness :
  let entries := [Adjusted (Entry 0 "Update" 4) 2 0; Adjusted (Entry 1 "Read" 10) 1 1;
                  Adjusted (Entry 0 "Insert" 25) 2 2] in
  exists wb,
    export_to_excel entries = Some wb
    /\ Sorted run_op_le (map fst (run_stats wb)).
Proof.
  intros entries.
  destruct (export_to_excel entries) as [wb|] eqn:E; [|vm_compute in E; discriminate].
  exists wb. split; [reflexivity|].
  exact (proj1 (proj2 (rows_are_sorted_one_per_key entries wb E))).
Defined.

(** ** plot_combined_operations and plot_separate_operation_graphs *)

Lemma fold_insert_other {V} (l : list (Z * V)) (m : gmap Z V) (k : Z) :
  k ∉ map fst l ->
  fold_left (fun colors p => <[p.1 := p.2]> colors) l m !! k = m !! k.
Proof.
  revert m. induction l as [|[k' v'] l IH]; intros m Hk; simpl; [reflexivity|].
  simpl in Hk. rewrite IH by (intros H; apply Hk; right; exact H).
  apply lookup_insert_ne. intros ->. apply Hk. left.
Qed.

Lemma fold_insert_elem {V} (l : list (Z * V)) (m : gmap Z V) (k : Z) (v : V) :
  NoDup (map fst l) -> (k, v) ∈ l ->
  fold_left (fun colors p => <[p.1 := p.2]> colors) l m !! k = Some v.
Proof.
  revert m. induction l as [|[k' v'] l IH]; intros m Hnd Hin; simpl.
  - apply elem_of_nil in Hin. contradiction.
  - simpl in Hnd. apply NoDup_cons in Hnd as [Hnotin Hnd].
    apply elem_of_cons in Hin as [[= -> ->]|Hin].
    + rewrite fold_insert_other by exact Hnotin. apply lookup_insert_eq.
    + apply IH; assumption.
Qed.

Lemma run_ids_NoDup (entries : list adjusted_entry) : NoDup (run_ids entries).
Proof. unfold run_ids. rewrite merge_sort_Permutation. apply NoDup_unique. Qed.

Lemma elem_of_run_ids (entries : list adjusted_entry) (run_id : Z) :
  run_id ∈ run_ids entries <-> exists e, e ∈ entries /\ run e = run_id.
Proof.
  unfold run_ids. rewrite merge_sort_Permutation, elem_of_unique, list_elem_of_fmap.
  split; intros (e & H1 & H2); exists e; auto.
Qed.

Lemma mapM_total {A B} (f : A -> option B) (g : A -> B) (l : list A) :
  (forall a, a ∈ l -> f a = Some (g a)) -> mapM f l = Some (map g l).
Proof.
  intros H. apply mapM_Some. apply Forall2_fmap_r, Forall_Forall2_diag.
  apply Forall_forall. exact H.
Qed.

Lemma elem_of_concat {A} (x : A) (ls : list (list A)) :
  x ∈ concat ls <-> exists l, l ∈ ls /\ x ∈ l.
Proof.
  induction ls as [|l ls IH]; simpl.
  - split; [intros H; apply elem_of_nil in H; contradiction|].
    intros (l & H & _). apply elem_of_nil in H. contradiction.
  - rewrite elem_of_app, IH. split.
    + intros [H|(l' & H1 & H2)]; [exists l; split; [left|exact H]|].
      exists l'. split; [right; exact H1|exact H2].
    + intros (l' & H1 & H2). apply elem_of_cons in H1 as [->|H1]; eauto.
Qed.

Lemma point_le_total : Total point_le.
Proof. intros [a b] [c d]. unfold point_le. simpl. lia. Qed.

Section ColorProperties.

Context {color : Type} (cmap : nat -> nat -> color).

(** The dictionary gives the run at position [i] of the run ids the entry
    [i] of the colormap made for as many entries as there are run ids. *)
Lemma run_colors_lookup (ids : list Z) (i : nat) (run_id : Z) :
  NoDup ids -> ids !! i = Some run_id ->
  run_colors cmap ids !! run_id = Some (cmap (length ids) i).
Proof.
  intros Hnd Hi. unfold run_colors, get_run_colors. apply fold_insert_elem.
  - rewrite fst_zip by (rewrite length_map, length_seq; lia). exact Hnd.
  - apply list_elem_of_lookup. exists i. apply lookup_zip_Some. split; [exact Hi|].
    rewrite list_lookup_fmap, lookup_seq_lt by (apply lookup_lt_Some in Hi; exact Hi).
    reflexivity.
Qed.

Lemma color_of_lookup (ids : list Z) (run_id : Z) :
  NoDup ids -> run_id ∈ ids ->
  exists i, ids !! i = Some run_id
            /\ run_colors cmap ids !! run_id = Some (color_of cmap ids run_id)
            /\ color_of cmap ids run_id = cmap (length ids) i.
Proof.
  intros Hnd Hin. apply list_elem_of_lookup in Hin as [i Hi].
  exists i. unfold color_of. rewrite (run_colors_lookup ids i run_id Hnd Hi). auto.
Qed.

Lemma draw_series (entries : list adjusted_entry) (op : string) (run_id : Z) :
  run_id ∈ run_ids entries ->
  draw entries (run_colors cmap (run_ids entries)) op run_id
  = Some (series_of cmap entries op run_id).
Proof.
  intros Hin. unfold draw, series_of.
  destruct (filtered entries op run_id); [reflexivity|].
  destruct (color_of_lookup _ _ (run_ids_NoDup entries) Hin) as (_ & _ & -> & _).
  reflexivity.
Qed.

Lemma draw_runs_series (entries : list adjusted_entry) (op : string) :
  draw_runs entries (run_colors cmap (run_ids entries)) (run_ids entries) op
  = Some (series_of_kind cmap entries op).
Proof.
  unfold draw_runs, series_of_kind.
  rewrite (mapM_total _ (series_of cmap entries op)); [reflexivity|].
  intros run_id Hin. apply draw_series, Hin.
Qed.

Lemma plot_combined_series (entries : list adjusted_entry) :
  plot_combined_operations cmap entries
  = Some (concat (map (series_of_kind cmap entries) operation_types)).
Proof.
  destruct entries as [|e entries]; [reflexivity|].
  unfold plot_combined_operations. cbv zeta.
  rewrite (mapM_total _ (series_of_kind cmap (e :: entries))); [reflexivity|].
  intros op _. apply draw_runs_series.
Qed.

Lemma plot_separate_series (entries : list adjusted_entry) :
  entries <> [] ->
  plot_separate_operation_graphs cmap entries
  = Some (map (fun op => (op, series_of_kind cmap entries op)) operation_types).
Proof.
  destruct entries as [|e entries]; [contradiction|]. intros _.
  unfold plot_separate_operation_graphs. cbv zeta.
  apply mapM_total. intros op _. rewrite draw_runs_series. reflexivity.
Qed.

(** X19: neither function raises on the lookup of a color, whatever the entries
    are; the figures of the second function are the three kinds in their
    fixed order, and their series, figure after figure, are the series of
    the combined figure. *)
Theorem plots_never_miss_a_color (entries : list adjusted_entry) :
  exists ss figs,
    plot_combined_operations cmap entries = Some ss
    /\ plot_separate_operation_graphs cmap entries = Some figs
    /\ concat (map snd figs) = ss
    /\ (entries <> [] -> map fst figs = ["Insert"; "Update"; "Read"]).
Proof.
  destruct entries as [|e entries].
  - exists [], []. repeat split. intros H. contradiction.
  - eexists. eexists.
    split; [apply plot_combined_series|].
    split; [apply plot_separate_series; discriminate|].
    split; [|intros _]; rewrite map_map; reflexivity.
Qed.

Lemma elem_of_series (entries : list adjusted_entry) (ss : list (series color)) (s : series color) :
  plot_combined_operations cmap entries = Some ss -> s ∈ ss ->
  exists op run_id,
    op ∈ operation_types /\ run_id ∈ run_ids entries
    /\ filtered entries op run_id <> []
    /\ s = Series op run_id (color_of cmap (run_ids entries) run_id)
                  (map fst (merge_sort point_le (filtered entries op run_id)))
                  (map snd (merge_sort point_le (filtered entries op run_id))).
Proof.
  rewrite plot_combined_series. intros E Hs.
  apply (inj Some) in E. rewrite <- E in Hs. clear E.
  apply elem_of_concat in Hs as (l & Hl & Hs).
  apply list_elem_of_fmap in Hl as (op & -> & Hop).
  unfold series_of_kind in Hs. apply elem_of_concat in Hs as (l & Hl & Hs).
  apply list_elem_of_fmap in Hl as (run_id & -> & Hrun).
  exists op, run_id. split; [exact Hop|]. split; [exact Hrun|].
  unfold series_of in Hs.
  destruct (filtered entries op run_id) as [|p ps] eqn:E.
  - apply elem_of_nil in Hs. contradiction.
  - split; [discriminate|]. apply list_elem_of_singleton in Hs. exact Hs.
Qed.

(** X20: a series is never empty, has as many ordinates as abscissas, runs from
    left to right, is of one of the three kinds, and its points are the
    cumulative seconds and durations of the entries of its kind and run. *)
Theorem series_run_from_left_to_right (entries : list adjusted_entry)
        (ss : list (series color)) (s : series color) :
  plot_combined_operations cmap entries = Some ss -> s ∈ ss ->
  series_x s <> []
  /\ length (series_x s) = length (series_y s)
  /\ Sorted Z.le (series_x s)
  /\ series_op s ∈ ["Insert"; "Update"; "Read"]
  /\ zip (series_x s) (series_y s) ≡ₚ filtered entries (series_op s) (series_run s).
Proof.
  intros Hss Hs.
  destruct (elem_of_series _ _ _ Hss Hs) as (op & run_id & Hop & _ & Hne & ->).
  cbn [series_x series_y series_op series_run].
  pose proof (merge_sort_Permutation point_le (filtered entries op run_id)) as Hperm.
  split; [|split; [|split; [|split]]].
  - intros E. apply fmap_nil_inv in E. rewrite E in Hperm.
    apply Permutation_nil_l in Hperm. apply Hne. symmetry. exact Hperm.
  - rewrite !length_map. reflexivity.
  - apply (Sorted_fmap fst point_le Z.le).
    + intros p q. unfold point_le. lia.
    + apply (Sorted_merge_sort point_le (Total0 := point_le_total)).
  - exact Hop.
  - change (map fst ?l) with (l.*1). change (map snd ?l) with (l.*2).
    rewrite zip_fst_snd. exact Hperm.
Qed.

(** X21: the color of a series is the entry of the colormap, made for as
    many entries as the entries have runs, at the position of its run among
    the sorted run ids.  Two series of the same run have the same color, in
    every kind.  Two series of different runs have different colors where the
    colormap has different entries at different positions below the number
    of runs; a colormap that repeats an entry there gives two runs one
    color. *)
Theorem series_color_is_the_colormap_entry_of_its_run
        (entries : list adjusted_entry) (ss : list (series color))
        (s1 s2 : series color) :
  plot_combined_operations cmap entries = Some ss -> s1 ∈ ss -> s2 ∈ ss ->
  let n := length (run_ids entries) in
  (exists i, run_ids entries !! i = Some (series_run s1)
             /\ (i < n)%nat /\ series_color s1 = cmap n i)
  /\ (series_run s1 = series_run s2 -> series_color s1 = series_color s2)
  /\ ((forall i j, (i < n)%nat -> (j < n)%nat -> cmap n i = cmap n j -> i = j) ->
      series_color s1 = series_color s2 -> series_run s1 = series_run s2)
  /\ (forall i j, run_ids entries !! i = Some (series_run s1) ->
                  run_ids entries !! j = Some (series_run s2) ->
                  i <> j -> cmap n i = cmap n j ->
                  series_run s1 <> series_run s2
                  /\ series_color s1 = series_color s2).
Proof.
  intros Hss H1 H2 n.
  destruct (elem_of_series _ _ _ Hss H1) as (op1 & r1 & _ & Hr1 & _ & ->).
  destruct (elem_of_series _ _ _ Hss H2) as (op2 & r2 & _ & Hr2 & _ & ->).
  cbn [series_color series_run].
  pose proof (run_ids_NoDup entries) as Hnd.
  destruct (color_of_lookup _ _ Hnd Hr1) as (i1 & Hi1 & _ & Hc1).
  destruct (color_of_lookup _ _ Hnd Hr2) as (i2 & Hi2 & _ & Hc2).
  fold n in Hc1, Hc2.
  pose proof (lookup_lt_Some _ _ _ Hi1) as Hlt1.
  pose proof (lookup_lt_Some _ _ _ Hi2) as Hlt2.
  split; [|split; [|split]].
  - exists i1. auto.
  - intros ->. reflexivity.
  - intros Hinj E. rewrite Hc1, Hc2 in E.
    apply Hinj in E; [|exact Hlt1|exact Hlt2]. subst i2. congruence.
  - intros i j Hi Hj Hij E.
    assert (i = i1) as -> by (eapply NoDup_lookup; eauto).
    assert (j = i2) as -> by (eapply NoDup_lookup; eauto).
    split; [|rewrite Hc1, Hc2; exact E].
    intros ->. apply Hij. eapply NoDup_lookup; eauto.
Qed.

Lemma points_drawn_app (ss1 ss2 : list (series color)) :
  points_drawn (ss1 ++ ss2) = points_drawn ss1 + points_drawn ss2.
Proof. unfold points_drawn. rewrite map_app. apply sum_app. Qed.

Lemma points_drawn_concat {A} (f : A -> list (series color)) (l : list A) :
  points_drawn (concat (map f l)) = sum (map (fun a => points_drawn (f a)) l).
Proof.
  induction l as [|a l IH]; [reflexivity|].
  simpl. rewrite points_drawn_app, sum_cons, IH. reflexivity.
Qed.

Lemma points_of_series (entries : list adjusted_entry) (op : string) (run_id : Z) :
  points_drawn (series_of cmap entries op run_id)
  = Z.of_nat (length (filter (fun e => run e = run_id) (subset_of op entries))).
Proof.
  unfold subset_of. rewrite list_filter_filter.
  assert (length (filtered entries op run_id)
          = length (filter (fun e => run e = run_id /\ op_of e = op) entries)) as <-.
  { unfold filtered. rewrite length_map. f_equal.
    apply list_filter_iff. intros e. tauto. }
  unfold series_of.
  pose proof (merge_sort_Permutation point_le (filtered entries op run_id)) as Hperm.
  destruct (filtered entries op run_id) as [|p ps] eqn:E; [reflexivity|].
  unfold points_drawn. cbn [map series_x]. rewrite sum_cons, length_map.
  rewrite (Permutation_length Hperm). unfold sum. simpl. lia.
Qed.

Lemma points_of_kind (entries : list adjusted_entry) (op : string) :
  points_drawn (series_of_kind cmap entries op) = Z.of_nat (length (subset_of op entries)).
Proof.
  unfold series_of_kind. rewrite points_drawn_concat.
  erewrite map_ext by (intros run_id; apply points_of_series).
  rewrite (counts_over_keys run (subset_of op entries)) by apply run_ids_NoDup.
  f_equal. f_equal. apply filter_all, Forall_forall. intros e He.
  apply elem_of_run_ids. exists e. split; [|reflexivity].
  unfold subset_of in He. apply list_elem_of_filter in He. tauto.
Qed.

(** X22: every entry of one of the three kinds is drawn as one point, and no
    other point is drawn; for entries that come from log files these are
    all the entries. *)
Theorem every_known_entry_is_one_point (entries : list adjusted_entry)
        (files : list (list string)) :
  (exists ss, plot_combined_operations cmap entries = Some ss
              /\ points_drawn ss
                 = Z.of_nat (length (filter (fun e => op_of e ∈ operation_types) entries)))
  /\ (exists ss, plot_combined_operations cmap (adjust_cumulative_seconds (parse_log_files files))
                 = Some ss
                 /\ points_drawn ss
                    = Z.of_nat (length (adjust_cumulative_seconds (parse_log_files files)))).
Proof.
  assert (forall es, points_drawn (concat (map (series_of_kind cmap es) operation_types))
                     = Z.of_nat (length (filter (fun e => op_of e ∈ operation_types) es)))
    as Hcount.
  { intros es. rewrite points_drawn_concat.
    erewrite map_ext by (intros op; apply points_of_kind).
    apply (counts_over_keys op_of es operation_types).
    apply (bool_decide_unpack (NoDup operation_types)). reflexivity. }
  split.
  - eexists. split; [apply plot_combined_series|apply Hcount].
  - eexists. split; [apply plot_combined_series|]. rewrite Hcount.
    f_equal. f_equal. apply filter_all, Forall_forall. intros a Ha.
    pose proof (parse_log_files_well_formed files) as Hwf.
    assert (copied a ∈ concat (parse_log_files files)) as Hc.
    { rewrite adjust_cumulative_seconds_eq in Ha.
      rewrite <- (copied_adjust_from (parse_log_files files) 1 0).
      apply list_elem_of_fmap_2, Ha. }
    apply elem_of_concat in Hc as (r & Hr & He).
    rewrite Forall_forall in Hwf. specialize (Hwf r Hr).
    rewrite Forall_forall in Hwf. destruct (Hwf _ He) as (_ & _ & Hop). exact Hop.
Qed.

End ColorProperties.

Lemma series_run_from_left_to_right_witness :
  let cmap (n i : nat) := i in
  let entries := [Adjusted (Entry 3 "Insert" 5) 1 3; Adjusted (Entry 0 "Insert" 7) 1 0] in
  let s := Series "Insert" 1 0%nat [0; 3] [7; 5] in
  Sorted Z.le (series_x s).
Proof.
  intros cmap entries s.
  assert (plot_combined_operations cmap entries = Some [s]) as Hss
    by (vm_compute; reflexivity).
  assert (s ∈ [s]) as Hs by left.
  exact (proj1 (proj2 (proj2 (series_run_from_left_to_right cmap entries [s] s Hss Hs)))).
Defined.

(** Two runs under a colormap whose entries are all different, and under one
    that has a single color. *)
Lemma series_color_is_the_colormap_entry_of_its_run_witness :
  let cmap (n i : nat) := i in
  let entries := [Adjusted (Entry 3 "Insert" 5) 1 3; Adjusted (Entry 0 "Read" 7) 2 4] in
  let s1 := Series "Insert" 1 0%nat [3] [5] in
  let s2 := Series "Read" 2 1%nat [4] [7] in
  plot_combined_operations cmap entries = Some [s1; s2]
  /\ series_color s1 = cmap 2%nat 0%nat
  /\ (series_color s1 = series_color s2 -> series_run s1 = series_run s2).
Proof.
  intros cmap entries s1 s2.
  assert (plot_combined_operations cmap entries = Some [s1; s2]) as Hss
    by (vm_compute; reflexivity).
  assert (s1 ∈ [s1; s2]) as H1 by left.
  assert (s2 ∈ [s1; s2]) as H2 by (right; left).
  pose proof (series_color_is_the_colormap_entry_of_its_run
                cmap entries [s1; s2] s1 s2 Hss H1 H2) as H.
  cbv zeta in H. destruct H as (_ & _ & Hinj & _).
  split; [exact Hss|]. split; [reflexivity|].
  apply Hinj. intros i j _ _ E. exact E.
Defined.

Example one_color_for_two_runs :
  let cmap (n i : nat) := 0%nat in
  let entries := [Adjusted (Entry 3 "Insert" 5) 1 3; Adjusted (Entry 0 "Read" 7) 2 4] in
  plot_combined_operations cmap entries
  = Some [Series "Insert" 1 0%nat [3] [5]; Series "Read" 2 0%nat [4] [7]].
Proof. vm_compute. reflexivity. Qed.

(** ** Which lines give a record *)

Lemma entry_pattern_shape (line : string) (m : Re.groups) :
  Re.search entry_pattern line = Some m ->
  exists pre w1 mid op w3 post,
    line = operation_line pre w1 mid op w3 post
    /\ w1 <> "" /\ all_chars Re.is_digit w1 = true
    /\ all_chars (Re.in_class Re.Dot) mid = true
    /\ op ∈ ["Insert"; "Update"; "Read"]
    /\ w3 <> "" /\ all_chars Re.is_digit w3 = true
    /\ m = <[3%nat := w3]> (<[2%nat := op]> (<[1%nat := w1]> ∅)).
Proof.
  intros H. apply search_sound in H as (pre & s0 & s' & -> & H).
  unfold entry_pattern in H. cbn [matches] in H.
  destruct H as (s1 & g1 & [-> ->] & s2 & g2 & (g2' & (w1 & -> & Hne1 & Hw1 & ->) & ->)
                 & s3 & g3 & [-> ->] & s4 & g4 & (w & -> & Hw & ->)
                 & s5 & g5 & (g5' & Hop & ->)
                 & s6 & g6 & [-> ->] & s7 & g7 & (g7' & (w3 & -> & Hne3 & Hw3 & ->) & ->)
                 & -> & ->).
  rewrite ?consumed_prefix in Hop |- *.
  assert (exists op, op ∈ ["Insert"; "Update"; "Read"]
                     /\ s4 = op +:+ " completed in " +:+ w3 +:+ " ms" +:+ s'
                     /\ g5' = <[1%nat := w1]> ∅) as (op & Hin & -> & ->).
  { destruct Hop as [[-> ->]|[[-> ->]|[-> ->]]]; eexists;
      (split; [|split; reflexivity]).
    - left.
    - right; left.
    - right; right; left. }
  rewrite consumed_prefix.
  exists pre, w1, w, op, w3, s'. unfold operation_line. repeat split; assumption.
Qed.

(** X23: a line gives a record only if it is not a boundary line and has the
    shape of an operation line: the second marker with its digits, text
    without a newline, a kind, " completed in ", digits and " ms"; the record
    is then the one the line spells out. *)
Theorem recorded_lines_have_the_shape (line : string) (e : entry) :
  e ∈ record_of_line line ->
  Re.search run_end_pattern line = None
  /\ exists pre w1 mid op w3 post,
      line = operation_line pre w1 mid op w3 post
      /\ w1 <> "" /\ all_chars Re.is_digit w1 = true
      /\ all_chars (Re.in_class Re.Dot) mid = true
      /\ op ∈ ["Insert"; "Update"; "Read"]
      /\ w3 <> "" /\ all_chars Re.is_digit w3 = true
      /\ e = Entry (int w1) op (int w3).
Proof.
  unfold record_of_line, process_line.
  destruct (Re.search run_end_pattern line) as [m0|].
  { simpl. intros H. apply elem_of_nil in H. contradiction. }
  destruct (Re.search entry_pattern line) as [m|] eqn:E.
  2:{ simpl. intros H. apply elem_of_nil in H. contradiction. }
  simpl. intros H. apply list_elem_of_singleton in H. split; [reflexivity|].
  destruct (entry_pattern_shape _ _ E)
    as (pre & w1 & mid & op & w3 & post & Hl & Hne1 & Hw1 & Hmid & Hop & Hne3 & Hw3 & ->).
  exists pre, w1, mid, op, w3, post.
  repeat (split; [assumption|]).
  rewrite H. unfold Re.group.
  rewrite lookup_insert_ne, lookup_insert_ne, lookup_insert_eq by done.
  rewrite (lookup_insert_ne _ 3%nat 2%nat), lookup_insert_eq by done.
  rewrite lookup_insert_eq. reflexivity.
Qed.

Lemma recorded_lines_have_the_shape_witness :
  let line := "x [Second 12] y Read completed in 70 ms z" in
  Entry 12 "Read" 70 ∈ record_of_line line
  /\ Re.search run_end_pattern line = None.
Proof.
  intros line.
  assert (Entry 12 "Read" 70 ∈ record_of_line line) as H by (vm_compute; left).
  split; [exact H|]. exact (proj1 (recorded_lines_have_the_shape line _ H)).
Defined.

(** ** The outlier filter on a kind with one duration *)

Lemma interpolated_uniform (q : Q) (values : list Z) (v : Q) (d : Z) :
  Forall (fun x => x = d) values -> interpolated q values v -> (v == inject_Z d)%Q.
Proof.
  intros Hall (sorted & a & b & Hperm & _ & Ha & Hb & ->).
  rewrite <- Hperm in Hall. rewrite Forall_forall in Hall.
  assert (a = d) as -> by (apply Hall, list_elem_of_lookup; eauto).
  assert (b = d) as -> by (apply Hall, list_elem_of_lookup; eauto).
  ring.
Qed.

(** X24: a kind whose records all have the same duration loses none of them. *)
Theorem uniform_kind_loses_no_record (df : frame) (op : string) (d : Z) :
  Forall (fun r => duration_of r = d) (subset_of op df) ->
  subset_of op (remove_outliers df) = subset_of op df.
Proof.
  intros Hall. rewrite subset_of_remove_outliers.
  destruct (subset_of op df) as [|r0 rest] eqn:E; [apply iqr_filter_nil|].
  rewrite <- E in *.
  assert (subset_of op df <> []) as Hne by (rewrite E; discriminate).
  destruct (iqr_filter_quartiles _ Hne) as (Q1 & Q3 & _ & _ & HI1 & HI3 & ->).
  assert (Forall (fun x => x = d) (map duration_of (subset_of op df))) as Hall'
    by (apply Forall_fmap; exact Hall).
  pose proof (interpolated_uniform _ _ _ _ Hall' HI1) as E1.
  pose proof (interpolated_uniform _ _ _ _ Hall' HI3) as E3.
  apply filter_all. eapply Forall_impl; [exact Hall|].
  intros r ->. unfold within_fences. cbv zeta. rewrite E1, E3. split; lra.
Qed.

Lemma uniform_kind_loses_no_record_witness :
  let read s := Adjusted (Entry s "Read" 7) 1 s in
  let df := [read 0; read 1; Adjusted (Entry 2 "Insert" 900) 1 2; read 3] in
  Forall (fun r => duration_of r = 7) (subset_of "Read" df)
  /\ subset_of "Read" (remove_outliers df) = subset_of "Read" df.
Proof.
  intros read df.
  assert (Forall (fun r => duration_of r = 7) (subset_of "Read" df)) as H
    by (vm_compute; repeat constructor).
  split; [exact H|]. exact (uniform_kind_loses_no_record df "Read" 7 H).
Defined.

(** ** export_to_excel: the two tables agree *)

Lemma filter_ext_elem {A} (P1 P2 : A -> Prop) `{forall x, Decision (P1 x)}
      `{forall x, Decision (P2 x)} (l : list A) :
  (forall x, x ∈ l -> (P1 x <-> P2 x)) -> filter P1 l = filter P2 l.
Proof.
  induction l as [|x l IH]; intros Hiff; [reflexivity|].
  rewrite !filter_cons.
  pose proof (Hiff x ltac:(left)) as Hx.
  rewrite IH by (intros y Hy; apply Hiff; right; exact Hy).
  destruct (decide (P1 x)), (decide (P2 x)); tauto.
Qed.

Lemma filter_rows {K V} (P : K -> Prop) `{forall k, Decision (P k)}
      (f : K -> option (K * V)) (ks : list K) :
  (forall k kv, f k = Some kv -> kv.1 = k) ->
  filter (fun row => P row.1) (omap f ks) = omap f (filter P ks).
Proof.
  intros Hf. induction ks as [|k ks IH]; [reflexivity|].
  cbn [omap list_omap]. rewrite (filter_cons P).
  destruct (f k) as [kv|] eqn:E.
  - rewrite filter_cons. pose proof (Hf _ _ E) as Hk. rewrite Hk.
    destruct (decide (P k)).
    + cbn [omap list_omap]. rewrite E, IH. reflexivity.
    + exact IH.
  - destruct (decide (P k)); [cbn [omap list_omap]; rewrite E|]; exact IH.
Qed.

Lemma counts_of_some_rows {K} `{EqDecision K} (le : K -> K -> Prop)
      `{forall a b, Decision (le a b)} (key : adjusted_entry -> K)
      (P : K -> Prop) `{forall k, Decision (P k)} (df : frame) :
  sum (map (fun row => Count row.2) (filter (fun row => P row.1) (groupby_agg le key df)))
  = Z.of_nat (length (filter (fun r => P (key r)) df)).
Proof.
  unfold groupby_agg. rewrite filter_rows.
  2:{ intros k kv. destruct (agg _); simpl; [|discriminate]. intros [= <-]. reflexivity. }
  rewrite counts_of_rows, sum_filter_nonzero.
  rewrite counts_over_keys.
  2:{ apply NoDup_filter. rewrite merge_sort_Permutation. apply NoDup_unique. }
  f_equal. f_equal. apply filter_ext_elem. intros r Hr.
  rewrite list_elem_of_filter, merge_sort_Permutation, elem_of_unique.
  split; [tauto|]. intros HP. split; [exact HP|]. apply list_elem_of_fmap_2, Hr.
Qed.

(** X25: the two tables agree: for every kind, the counts of its rows in the
    table by run add up to the count of its row in the table by kind, which
    is the number of its records of positive duration. *)
Theorem tables_agree_on_the_counts (entries : list adjusted_entry) (wb : workbook)
        (op : string) :
  export_to_excel entries = Some wb ->
  sum (map (fun row => Count row.2) (filter (fun row => row.1.2 = op) (run_stats wb)))
  = sum (map (fun row => Count row.2) (filter (fun row => row.1 = op) (consolidated wb)))
  /\ sum (map (fun row => Count row.2) (filter (fun row => row.1 = op) (consolidated wb)))
     = Z.of_nat (length (group_durations op_of entries op)).
Proof.
  destruct entries as [|r0 rest]; [discriminate|].
  intros [= <-]. cbn [consolidated run_stats].
  pose proof (counts_of_some_rows run_op_le (fun r => (run r, op_of r))
                                  (fun k => k.2 = op) (nonzero (r0 :: rest))) as Hrun.
  pose proof (counts_of_some_rows str_le op_of (fun k => k = op)
                                  (nonzero (r0 :: rest))) as Hop.
  cbn beta in Hrun, Hop. simpl snd in Hrun.
  split; [exact (eq_trans Hrun (eq_sym Hop))|].
  etransitivity; [exact Hop|].
  unfold group_durations, nonzero. rewrite length_map, list_filter_filter. reflexivity.
Qed.

Lemma tables_agree_on_the_counts_witness :
  let entries := [Adjusted (Entry 0 "Read" 4) 1 0; Adjusted (Entry 1 "Read" 0) 1 1;
                  Adjusted (Entry 0 "Read" 25) 2 2; Adjusted (Entry 1 "Insert" 3) 2 3] in
  exists wb,
    export_to_excel entries = Some wb
    /\ sum (map (fun row => Count row.2)
                (filter (fun row => row.1 = "Read") (consolidated wb))) = 2.
Proof.
  intros entries.
  destruct (export_to_excel entries) as [wb|] eqn:E; [|vm_compute in E; discriminate].
  exists wb. split; [reflexivity|].
  rewrite (proj2 (tables_agree_on_the_counts entries wb "Read" E)).
  vm_compute. reflexivity.
Defined.
